(** * crawler.py: a shallow embedding of [WebCrawler] and its crawl loop.

    The development follows src/crawler.py top to bottom: the data the
    class keeps ([DatabaseConfig], the two sqlite tables, the visited set),
    the persistence helpers ([save_result], [log_crawl]), the worker
    ([crawl_page]) and the scheduler ([crawl]).

    Python exceptions are explicit: a computation of the class is a function
    from the object [self] to a result ([Ok] or [Raise]) and the new [self];
    a mutation done before an exception is raised persists, as in Python. *)

From Stdlib Require Import ZArith Lia.
From stdpp Require Import base gmap sets list strings.

#[local] Set Warnings "-clear-no-such-hyp".

Local Open Scope string_scope.
Local Open Scope list_scope.
Local Open Scope Z_scope.

(** ** Exceptions and results *)

(** The subclasses of [Exception] the source distinguishes or can meet.
    [str] is Python's [str(e)]. *)
Inductive exn : Type :=
  | IntegrityError (msg : string)      (* sqlite3.IntegrityError *)
  | AttributeError (msg : string)
  | ValueError (msg : string)
  | OtherException (msg : string).     (* any other subclass of Exception *)

Definition str (e : exn) : string :=
  match e with
  | IntegrityError m | AttributeError m | ValueError m | OtherException m => m
  end.

Inductive py_result (A : Type) : Type :=
  | Ok (a : A)
  | Raise (e : exn).
Arguments Ok {A} a.
Arguments Raise {A} e.

(** ** The data of the class *)

Record DatabaseConfig : Type := mkDatabaseConfig {
  host : string;
  user : string;
  password : string;
  database : string;
  port : Z
}.

(** [port: int = 3306] *)
Definition DatabaseConfig_default_port : Z := 3306.

(** A row of [crawl_results]; [title] and [ip_address] are nullable. The
    columns [id] (AUTOINCREMENT) and [created_at] (wall-clock default) are
    assigned by sqlite and never supplied or compared by the crawler; they
    are left out. *)
Record result_row : Type := mkResultRow {
  res_url : string;
  res_title : option string;
  res_content_hash : string;
  res_ip_address : option string
}.

(** A row of [crawl_logs]; [error] is nullable. *)
Record log_row : Type := mkLogRow {
  log_url : string;
  log_status : string;
  log_error : option string
}.

(** The sqlite file: both tables, rows in insertion order. *)
Record sqlite_db : Type := mkDb {
  crawl_results : list result_row;
  crawl_logs : list log_row
}.

(** [self.conn]: the file the connection was opened on, and its content. *)
Record connection : Type := mkConn {
  conn_path : string;
  conn_db : sqlite_db
}.

Record WebCrawler : Type := mkWebCrawler {
  start_url : string;
  visited : gset string;
  delay : Z;
  domain : string;
  max_workers : Z;
  db_config : DatabaseConfig;
  conn : connection
}.

Definition set_visited (v : gset string) (self : WebCrawler) : WebCrawler :=
  mkWebCrawler (start_url self) v (delay self) (domain self)
               (max_workers self) (db_config self) (conn self).

Definition set_db (db : sqlite_db) (self : WebCrawler) : WebCrawler :=
  mkWebCrawler (start_url self) (visited self) (delay self) (domain self)
               (max_workers self) (db_config self)
               (mkConn (conn_path (conn self)) db).

Definition set_db_config (c : DatabaseConfig) (self : WebCrawler) : WebCrawler :=
  mkWebCrawler (start_url self) (visited self) (delay self) (domain self)
               (max_workers self) c (conn self).

Definition results (self : WebCrawler) : list result_row :=
  crawl_results (conn_db (conn self)).

Definition logs (self : WebCrawler) : list log_row :=
  crawl_logs (conn_db (conn self)).

(** ** The collaborators *)

(** What [crawl_page] reads off a parsed document: [soup.title] (None when
    the document has no title tag) with its [.string] (None when the tag has
    no single string child), and [link.get('href')] for every anchor of
    [soup.find_all('a')], in document order. *)
Record soup : Type := mkSoup {
  soup_title : option (option string);
  soup_anchors : list (option string)
}.

(** The libraries the module imports, as functions, and the result of
    looking up the attribute [is_valid_url] on a crawler: the class body in
    src/crawler.py does not define it, which is [None] here.
    [as_completed] is the order in which the futures of a batch complete,
    some rearrangement of the batch; the workers of a batch are run one
    after the other in that order (each worker atomically), which is one of
    the schedules of the thread pool. *)
Record World : Type := mkWorld {
  requests_get : string → py_result string;            (* requests.get(url).text *)
  BeautifulSoup : string → py_result soup;             (* BeautifulSoup(text, 'html.parser') *)
  urljoin : string → string → py_result string;
  urlparse_netloc : string → py_result string;         (* urlparse(url).netloc *)
  md5_hexdigest : string → string;                     (* hashlib.md5(s.encode()).hexdigest() *)
  as_completed : list string → list string;
  as_completed_perm : ∀ batch, as_completed batch ≡ₚ batch;
  lookup_is_valid_url : option (WebCrawler → string → py_result bool)
}.

(** Modelled from the spec: the method [is_valid_url], which [crawl_page]
    calls on every absolutized href and which src/crawler.py does not
    define. Spec 4.2: keep only links whose host matches the crawl's target
    domain exactly (no subdomain matching, no path restriction). *)
Definition is_valid_url_spec (netloc : string → py_result string)
    (self : WebCrawler) (url : string) : py_result bool :=
  match netloc url with
  | Ok h => Ok (bool_decide (h = domain self))
  | Raise e => Raise e
  end.

(** A world whose attribute lookup finds the method modelled from the spec. *)
Definition with_is_valid_url_spec (W : World) : World :=
  mkWorld (requests_get W) (BeautifulSoup W) (urljoin W) (urlparse_netloc W)
          (md5_hexdigest W) (as_completed W) (as_completed_perm W)
          (Some (is_valid_url_spec (urlparse_netloc W))).

(** ** Computations on [self] *)

Definition M (A : Type) : Type := WebCrawler → py_result A * WebCrawler.

Definition ret {A} (a : A) : M A := λ self, (Ok a, self).

Definition bind {A B} (m : M A) (k : A → M B) : M B :=
  λ self, match m self with
          | (Ok a, self') => k a self'
          | (Raise e, self') => (Raise e, self')
          end.

Definition lift {A} (r : py_result A) : M A := λ self, (r, self).

Definition gets {A} (f : WebCrawler → A) : M A := λ self, (Ok (f self), self).

Definition modify (f : WebCrawler → WebCrawler) : M unit := λ self, (Ok tt, f self).

(** [try: m  except C as e: h e], where [catches e] tells whether [e] is an
    instance of [C]. *)
Definition try_except {A} (m : M A) (catches : exn → bool) (h : exn → M A) : M A :=
  λ self, match m self with
          | (Ok a, self') => (Ok a, self')
          | (Raise e, self') => if catches e then h e self' else (Raise e, self')
          end.

Notation "'do' x <- m ; k" := (bind m (λ x, k))
  (at level 10, x name, m at level 100, k at level 200,
   format "'[v' 'do'  x  <-  m ; '/' k ']'").
Notation "'do_' m ; k" := (bind m (λ _, k))
  (at level 10, m at level 100, k at level 200,
   format "'[v' 'do_'  m ; '/' k ']'").

Definition is_Exception (e : exn) : bool := true.

Definition is_IntegrityError (e : exn) : bool :=
  match e with IntegrityError _ => true | _ => false end.

Section Crawler.
Context (W : World).

(** ** Persistence helpers *)

Definition get_content_hash (content : string) : string := md5_hexdigest W content.

(** [SELECT id FROM crawl_results WHERE content_hash = ?] then
    [fetchone() is not None]. *)
Definition is_duplicate_content (content_hash : string) : M bool :=
  gets (λ self,
    bool_decide (Exists (λ r, res_content_hash r = content_hash) (results self))).

(** The [INSERT INTO crawl_results] with the two UNIQUE constraints of the
    table, then the commit. *)
Definition insert_crawl_results (url : string) (title : option string)
    (content_hash : string) (ip : option string) : M unit :=
  λ self,
    if bool_decide (Exists (λ r, res_url r = url) (results self)) then
      (Raise (IntegrityError "UNIQUE constraint failed: crawl_results.url"), self)
    else if bool_decide (Exists (λ r, res_content_hash r = content_hash) (results self)) then
      (Raise (IntegrityError "UNIQUE constraint failed: crawl_results.content_hash"), self)
    else
      (Ok tt,
       set_db (mkDb (results self ++ [mkResultRow url title content_hash ip])
                    (logs self)) self).

(** The handler of [save_result] only prints; standard output is not part of
    the state. *)
Definition save_result (url : string) (title : option string) (content : string)
    (ip : option string) : M unit :=
  let content_hash := get_content_hash content in
  do dup <- is_duplicate_content content_hash;
  if negb dup then
    try_except (insert_crawl_results url title content_hash ip)
               is_IntegrityError (λ _, ret tt)
  else ret tt.

Definition log_crawl (url status : string) (error : option string) : M unit :=
  modify (λ self,
    set_db (mkDb (results self) (logs self ++ [mkLogRow url status error])) self).

(** ** The worker *)

(** [self.is_valid_url(absolute_url)]: the attribute lookup, then the call. *)
Definition call_is_valid_url (absolute_url : string) : M bool :=
  λ self,
    match lookup_is_valid_url W with
    | Some f => (f self absolute_url, self)
    | None =>
        (Raise (AttributeError "'WebCrawler' object has no attribute 'is_valid_url'"),
         self)
    end.

(** [if href:] is false for a missing attribute and for the empty string. *)
Definition truthy (href : option string) : bool :=
  match href with
  | Some h => negb (bool_decide (h = ""))
  | None => false
  end.

(** The loop [for link in soup.find_all('a')] of [crawl_page], on the hrefs
    of the anchors; [links] is the set built so far. *)
Fixpoint extract_links (url : string) (anchors : list (option string))
    (links : gset string) : M (gset string) :=
  match anchors with
  | [] => ret links
  | href :: anchors' =>
      if truthy href then
        do absolute_url <- lift (urljoin W url (default "" href));
        do valid <- call_is_valid_url absolute_url;
        if valid then extract_links url anchors' ({[absolute_url]} ∪ links)
        else extract_links url anchors' links
      else extract_links url anchors' links
  end.

(** [soup.title.string if soup.title else "No title"] *)
Definition title_of (s : soup) : option string :=
  match soup_title s with
  | Some t => t
  | None => Some "No title"
  end.

(** The [try] block of [crawl_page]. *)
Definition crawl_page_try (url : string) : M (gset string) :=
  do text <- lift (requests_get W url);
  do s <- lift (BeautifulSoup W text);
  let title := title_of s in
  do ip <- lift (urlparse_netloc W url);
  do_ save_result url title text (Some ip);
  do_ log_crawl url "success" None;
  extract_links url (soup_anchors s) ∅.

Definition crawl_page (url : string) : M (gset string) :=
  try_except (crawl_page_try url) is_Exception
    (λ e, do_ log_crawl url "error" (Some (str e)); ret ∅).

(** ** The scheduler *)

(** The inner [while queue and len(batch) < self.max_workers] loop, on the
    queue, [self.visited] and the batch built so far; returns what is left
    of the queue, the new visited set and the batch. *)
Fixpoint take_batch (workers : Z) (queue : list string) (vis : gset string)
    (batch : list string) : list string * gset string * list string :=
  match queue with
  | [] => (queue, vis, batch)
  | url :: queue' =>
      if Z.of_nat (length batch) <? workers then
        if decide (url ∈ vis) then take_batch workers queue' vis batch
        else take_batch workers queue' ({[url]} ∪ vis) (batch ++ [url])
      else (queue, vis, batch)
  end.

(** [executor.submit(self.crawl_page, url)] for the urls of a batch: each
    worker runs to completion and its outcome is kept in its future. *)
Fixpoint run_workers (urls : list string) (self : WebCrawler)
    : list (py_result (gset string)) * WebCrawler :=
  match urls with
  | [] => ([], self)
  | url :: urls' =>
      let '(r, self1) := crawl_page url self in
      let '(rs, self2) := run_workers urls' self1 in
      (r :: rs, self2)
  end.

(** [queue.extend(link for link in new_links if link not in self.visited)];
    the set is iterated in the order of [elements]. *)
Definition offer (vis : gset string) (queue : list string)
    (new_links : gset string) : list string :=
  queue ++ filter (λ link, link ∉ vis) (elements new_links).

(** The loop over the completed futures: [future.result()] returns the
    worker's links or raises the worker's exception again. *)
Fixpoint collect_results (futures : list (py_result (gset string)))
    (vis : gset string) (queue : list string) : py_result (list string) :=
  match futures with
  | [] => Ok queue
  | Ok new_links :: futures' => collect_results futures' vis (offer vis queue new_links)
  | Raise e :: _ => Raise e
  end.

(** [time.sleep] refuses a negative length; the waiting itself is not
    modelled. *)
Definition time_sleep (secs : Z) : py_result unit :=
  if secs <? 0 then Raise (ValueError "sleep length must be non-negative")
  else Ok tt.

(** What the scheduler did in one turn of its outer loop: [self.visited]
    when the loop condition was tested, the batch, and [self.visited] when
    the batch was submitted to the pool. *)
Record batch_event : Type := mkEvent {
  ev_visited_before : gset string;
  ev_batch : list string;
  ev_visited_at_dispatch : gset string
}.

Inductive turn : Type :=
  | Stop (queue : list string)                       (* condition false, or [break] *)
  | Next (queue : list string) (ev : batch_event)    (* a batch was run *)
  | Fail (e : exn) (ev : batch_event).               (* an exception after the batch was run *)

(** One turn of [while queue and len(self.visited) < max_pages]. *)
Definition crawl_turn (max_pages : Z) (queue : list string) (self : WebCrawler)
    : turn * WebCrawler :=
  if negb (bool_decide (queue = [])) && (Z.of_nat (size (visited self)) <? max_pages) then
    let '(queue1, vis1, batch) := take_batch (max_workers self) queue (visited self) [] in
    let self1 := set_visited vis1 self in
    if bool_decide (batch = []) then (Stop queue1, self1)
    else
      let ev := mkEvent (visited self) batch (visited self1) in
      let '(futures, self2) := run_workers (as_completed W batch) self1 in
      match collect_results futures (visited self2) queue1 with
      | Ok queue2 =>
          match time_sleep (delay self2) with
          | Ok _ => (Next queue2 ev, self2)
          | Raise e => (Fail e ev, self2)
          end
      | Raise e => (Fail e ev, self2)
      end
  else (Stop queue, self).

(** The result of a run: how [crawl] ended (the queue left, or the exception
    that escaped), the batches in the order they were dispatched, and the
    object afterwards. *)
Definition run : Type := py_result (list string) * list batch_event * WebCrawler.

(** The outer loop, at most [fuel] turns; [None] when the fuel runs out
    (ruled out for [crawl] by the termination theorem below). *)
Fixpoint crawl_loop (fuel : nat) (max_pages : Z) (queue : list string)
    (trace : list batch_event) (self : WebCrawler) : option run :=
  match fuel with
  | O => None
  | S fuel' =>
      match crawl_turn max_pages queue self with
      | (Stop queue', self') => Some (Ok queue', trace, self')
      | (Next queue' ev, self') =>
          crawl_loop fuel' max_pages queue' (trace ++ [ev]) self'
      | (Fail e ev, self') => Some (Raise e, trace ++ [ev], self')
      end
  end.

Definition crawl_fuel (max_pages : Z) (self : WebCrawler) : nat :=
  S (Z.to_nat (max_pages - Z.of_nat (size (visited self)))).

(** [crawl]: the pool is created first ([ThreadPoolExecutor] refuses a
    non-positive [max_workers]), then the loop runs. *)
Definition crawl (max_pages : Z) (self : WebCrawler) : option run :=
  if max_workers self <=? 0 then
    Some (Raise (ValueError "max_workers must be greater than 0"), [], self)
  else crawl_loop (crawl_fuel max_pages self) max_pages [start_url self] [] self.

(** ** The constructor *)

(** [sqlite3.connect('crawler.db')] on a disk of sqlite files, then
    [CREATE TABLE IF NOT EXISTS] for both tables: an existing file keeps its
    rows. *)
Definition setup_database (disk : gmap string sqlite_db) : connection :=
  mkConn "crawler.db" (default (mkDb [] []) (disk !! "crawler.db")).

Definition WebCrawler_init (disk : gmap string sqlite_db) (start : string)
    (cfg : DatabaseConfig) (delay_ workers : Z) : py_result WebCrawler :=
  match urlparse_netloc W start with
  | Ok netloc => Ok (mkWebCrawler start ∅ delay_ netloc workers cfg (setup_database disk))
  | Raise e => Raise e
  end.

End Crawler.

(** ** Vocabulary of the statements *)

(** [self] after [log_crawl url status error]. *)
Definition logged (url status : string) (error : option string)
    (self : WebCrawler) : WebCrawler :=
  set_db (mkDb (results self) (logs self ++ [mkLogRow url status error])) self.

(** The table [crawl_results] after [save_result]: unchanged when the hash
    or the url is already stored, one row longer otherwise. *)
Definition saved_rows (W : World) (url : string) (title : option string)
    (content : string) (ip : option string) (rows : list result_row)
    : list result_row :=
  if bool_decide (Exists (λ r, res_content_hash r = get_content_hash W content) rows) then rows
  else if bool_decide (Exists (λ r, res_url r = url) rows) then rows
  else rows ++ [mkResultRow url title (get_content_hash W content) ip].

Definition saved (W : World) (url : string) (title : option string)
    (content : string) (ip : option string) (self : WebCrawler) : WebCrawler :=
  set_db (mkDb (saved_rows W url title content ip (results self)) (logs self)) self.

(** The three ways [crawl_page url] can go from [self]: the fetch, the
    parse or [urlparse] raises before anything is stored; the page is stored,
    logged and its links extracted; or the link extraction raises after the
    page was stored and logged. Each relates [self] to the links returned
    and the object afterwards. *)
Inductive page_outcome (W : World) (url : string) (self : WebCrawler)
    : gset string → WebCrawler → Prop :=
  | fetch_failed e :
      requests_get W url = Raise e
      ∨ (∃ text, requests_get W url = Ok text ∧ BeautifulSoup W text = Raise e)
      ∨ (∃ text s, requests_get W url = Ok text ∧ BeautifulSoup W text = Ok s
                   ∧ urlparse_netloc W url = Raise e) →
      page_outcome W url self ∅ (logged url "error" (Some (str e)) self)
  | page_stored text s ip links :
      requests_get W url = Ok text →
      BeautifulSoup W text = Ok s →
      urlparse_netloc W url = Ok ip →
      let self1 :=
        logged url "success" None (saved W url (title_of s) text (Some ip) self) in
      (extract_links W url (soup_anchors s) ∅ self1).1 = Ok links →
      page_outcome W url self links self1
  | extraction_failed text s ip e :
      requests_get W url = Ok text →
      BeautifulSoup W text = Ok s →
      urlparse_netloc W url = Ok ip →
      let self1 :=
        logged url "success" None (saved W url (title_of s) text (Some ip) self) in
      (extract_links W url (soup_anchors s) ∅ self1).1 = Raise e →
      page_outcome W url self ∅ (logged url "error" (Some (str e)) self1).

(** The two UNIQUE constraints of [crawl_results]. *)
Definition unique_rows (rows : list result_row) : Prop :=
  NoDup (res_url <$> rows) ∧ NoDup (res_content_hash <$> rows).

(** The attribute lookup of [is_valid_url] either fails, as in the source,
    or finds the method modelled from the spec. *)
Definition lookup_known (W : World) : Prop :=
  lookup_is_valid_url W = None ∨
  lookup_is_valid_url W = Some (is_valid_url_spec (urlparse_netloc W)).

(** [s] is [self] with possibly another visited set and other table
    contents: the only two things the methods of the class assign to. *)
Definition evolves (self s : WebCrawler) : Prop :=
  ∃ vis db, s = set_db db (set_visited vis self).

(** What holds of a turn of the outer loop that dispatched the batch of
    [ev], from the queue [queue] and the object [self] to [self']. *)
Definition batch_facts (max_pages : Z) (queue : list string)
    (self self' : WebCrawler) (ev : batch_event) : Prop :=
  queue ≠ []
  ∧ Z.of_nat (size (visited self)) < max_pages
  ∧ ev_visited_before ev = visited self
  ∧ ev_batch ev ≠ []
  ∧ NoDup (ev_batch ev)
  ∧ (∀ u, u ∈ ev_batch ev → (u ∉ visited self) ∧ (u ∈ queue))
  ∧ Z.of_nat (length (ev_batch ev)) ≤ max_workers self
  ∧ ev_visited_at_dispatch ev = visited self ∪ list_to_set (ev_batch ev)
  ∧ visited self' = visited self ∪ list_to_set (ev_batch ev)
  ∧ (∃ db, self' = set_db db (set_visited (visited self') self)).

(** An outcome with [f] applied to the object it leaves. *)
Definition on_self {A} (f : WebCrawler → WebCrawler)
    (x : A * WebCrawler) : A * WebCrawler := (x.1, f x.2).

Definition run_on_self (f : WebCrawler → WebCrawler) (o : option run) : option run :=
  match o with
  | Some (r, trace, self) => Some (r, trace, f self)
  | None => None
  end.

(** A stored row that is what [crawl_page] makes of the page at its url:
    the title of the parsed body (or "No title"), the hash of the body, and
    as [ip_address] the url's own host (not a resolved address). *)
Definition stored_from_page (W : World) (row : result_row) : Prop :=
  ∃ text sp ip,
    requests_get W (res_url row) = Ok text
    ∧ BeautifulSoup W text = Ok sp
    ∧ urlparse_netloc W (res_url row) = Ok ip
    ∧ row = mkResultRow (res_url row) (title_of sp) (get_content_hash W text) (Some ip).

(** What [crawl_page] has in hand when it reaches its first write (lines
    92 to 97): the body, the parsed document and the host of the url; or the
    exception that sends it to the handler before anything is written. *)
Definition fetch_page (W : World) (url : string)
    : py_result (string * soup * string) :=
  match requests_get W url with
  | Ok text =>
      match BeautifulSoup W text with
      | Ok s =>
          match urlparse_netloc W url with
          | Ok ip => Ok (text, s, ip)
          | Raise e => Raise e
          end
      | Raise e => Raise e
      end
  | Raise e => Raise e
  end.

(** A list with every element kept once, at its first occurrence. *)
Fixpoint keep_first (l : list string) : list string :=
  match l with
  | [] => []
  | u :: l' => u :: filter (λ x, x ≠ u) (keep_first l')
  end.

(** What a batch of futures adds to the queue: for each set of links, in
    the order of the futures, its links that are not visited. *)
Definition unvisited_links (vis : gset string) (links_list : list (gset string))
    : list string :=
  concat ((λ links : gset string, filter (λ u, u ∉ vis) (elements links))
          <$> links_list).


(** All urls dispatched in a run, in order. *)
Definition dispatched (trace : list batch_event) : list string :=
  concat (ev_batch <$> trace).

(** ** A small site to run the crawler on *)

Module Site.

Definition home := "https://example.com".
Definition page_a := "https://example.com/a".
Definition page_b := "https://example.com/b".
Definition page_c := "https://example.com/c".
Definition page_bad := "https://example.com/bad".
Definition page_plain := "https://example.com/plain".
Definition elsewhere := "https://other.org/".

(** [home] links to [/a], [/b] and another site; [/a] and [/b] have the same
    body and both link to [/c]; fetching [/c] fails; [/bad] has one anchor,
    whose href [urljoin] rejects (an opening bracket in the host makes
    [urlsplit] raise ValueError); [/plain] has no anchor at all. *)
Definition get (url : string) : py_result string :=
  if decide (url = home) then Ok "<title>Home</title><a href=/a><a href=/b><a href=https://other.org/><a><a href=>"
  else if decide (url = page_a) then Ok "<a href=/c>"
  else if decide (url = page_b) then Ok "<a href=/c>"
  else if decide (url = page_bad) then Ok "<a href=//[>"
  else if decide (url = page_plain) then Ok "<p>plain</p>"
  else Raise (OtherException "ConnectionError").

Definition parse (text : string) : py_result soup :=
  if decide (text = "<a href=/c>") then Ok (mkSoup None [Some "/c"])
  else if decide (text = "<a href=//[>") then Ok (mkSoup None [Some "//["])
  else if decide (text = "<p>plain</p>") then Ok (mkSoup None [])
  else Ok (mkSoup (Some (Some "Home"))
                  [Some "/a"; Some "/b"; Some elsewhere; None; Some ""]).

Definition join (base href : string) : py_result string :=
  if decide (href = "//[") then Raise (ValueError "Invalid IPv6 URL")
  else if decide (href = elsewhere) then Ok elsewhere
  else Ok (home +:+ href).

Definition netloc (url : string) : py_result string :=
  if decide (url = elsewhere) then Ok "other.org" else Ok "example.com".

(** The class as src/crawler.py defines it. *)
Definition as_written : World :=
  mkWorld get parse join netloc id id (λ batch, Permutation_refl batch) None.

(** The class completed with the method modelled from the spec. *)
Definition completed : World := with_is_valid_url_spec as_written.

Definition config : DatabaseConfig :=
  mkDatabaseConfig "localhost" "crawler_user" "secure_password" "crawler_db"
                   DatabaseConfig_default_port.

Definition fresh (workers : Z) : WebCrawler :=
  mkWebCrawler home ∅ 1 "example.com" workers config (mkConn "crawler.db" (mkDb [] [])).

End Site.


(** * Facts *)

Section Facts.
Context (W : World).

(** ** Setters *)

Lemma set_db_same self : set_db (mkDb (results self) (logs self)) self = self.
Proof. by destruct self as [? ? ? ? ? ? [? []]]. Qed.

Lemma results_set_db rows lg self : results (set_db (mkDb rows lg) self) = rows.
Proof. done. Qed.

Lemma logs_set_db rows lg self : logs (set_db (mkDb rows lg) self) = lg.
Proof. done. Qed.

(** ** Persistence helpers *)

Lemma log_crawl_eq url status error self :
  log_crawl url status error self = (Ok tt, logged url status error self).
Proof. done. Qed.

Lemma save_result_eq url title content ip self :
  save_result W url title content ip self = (Ok tt, saved W url title content ip self).
Proof.
  unfold save_result, saved, saved_rows, bind, is_duplicate_content, gets.
  case_bool_decide as Hh; simpl.
  { by rewrite set_db_same. }
  unfold try_except, insert_crawl_results.
  case_bool_decide as Hu; simpl.
  { by rewrite set_db_same. }
  rewrite bool_decide_eq_false_2 by done. done.
Qed.

Lemma saved_rows_cases url title content ip rows :
  saved_rows W url title content ip rows = rows ∨
  (saved_rows W url title content ip rows
     = rows ++ [mkResultRow url title (get_content_hash W content) ip]
   ∧ ¬ Exists (λ r, res_content_hash r = get_content_hash W content) rows
   ∧ ¬ Exists (λ r, res_url r = url) rows).
Proof.
  unfold saved_rows. repeat case_bool_decide; auto.
Qed.

Lemma Exists_fmap_elem {A B} (f : A → B) (b : B) (l : list A) :
  Exists (λ r, f r = b) l ↔ b ∈ f <$> l.
Proof.
  rewrite Exists_exists, list_elem_of_fmap. split.
  - intros (x & Hx & <-). by exists x.
  - intros (x & -> & Hx). by exists x.
Qed.

Lemma saved_rows_unique url title content ip rows :
  unique_rows rows → unique_rows (saved_rows W url title content ip rows).
Proof.
  intros [Hu Hh].
  destruct (saved_rows_cases url title content ip rows) as [-> | (-> & Hnh & Hnu)];
    [done |].
  rewrite Exists_fmap_elem in Hnh, Hnu.
  split; rewrite fmap_app; simpl; apply NoDup_app; repeat split; try done;
    try (apply NoDup_singleton); intros x Hx Hx';
    apply list_elem_of_singleton in Hx'; by subst.
Qed.

(** ** The worker *)

(** Link extraction reads [self] (through [is_valid_url]) and leaves it as
    it is. *)
Lemma extract_links_frame url anchors links self :
  (extract_links W url anchors links self).2 = self.
Proof.
  revert links. induction anchors as [| href anchors IH]; intros links; simpl.
  - done.
  - destruct (truthy href); [| apply IH].
    unfold bind, lift, call_is_valid_url.
    destruct (urljoin W url (default "" href)) as [abs | e]; [| done].
    destruct (lookup_is_valid_url W) as [f |]; [| done].
    destruct (f self abs) as [[] | e]; [apply IH | apply IH | done].
Qed.

Lemma crawl_page_outcome url self :
  ∃ links self', crawl_page W url self = (Ok links, self')
                 ∧ page_outcome W url self links self'.
Proof.
  unfold crawl_page, try_except, crawl_page_try, bind, lift.
  destruct (requests_get W url) as [text | e] eqn:Hget; simpl.
  2: { eexists _, _; split; [done |]. apply fetch_failed; auto. }
  destruct (BeautifulSoup W text) as [s | e] eqn:Hparse; simpl.
  2: { eexists _, _; split; [done |]. apply fetch_failed; eauto 6. }
  destruct (urlparse_netloc W url) as [ip | e] eqn:Hip; simpl.
  2: { eexists _, _; split; [done |]. apply fetch_failed; eauto 8. }
  rewrite save_result_eq.
  fold (logged url "success" None (saved W url (title_of s) text (Some ip) self)).
  set (self1 := logged url "success" None (saved W url (title_of s) text (Some ip) self)).
  pose proof (extract_links_frame url (soup_anchors s) ∅ self1) as Hfr.
  destruct (extract_links W url (soup_anchors s) ∅ self1) as [[links | e] self2] eqn:Hex;
    simpl in Hfr; subst self2.
  - eexists _, _; split; [done |]. eapply page_stored; eauto. subst self1. by rewrite Hex.
  - eexists _, _; split; [done |]. eapply extraction_failed; eauto. subst self1. by rewrite Hex.
Qed.

(** With the lookup of [is_valid_url] as in the source or as modelled from
    the spec, a link is only added to the set when its host is the domain
    of the crawler. *)
Lemma extract_links_in_domain url anchors : ∀ links self r,
  lookup_known W →
  (extract_links W url anchors links self).1 = Ok r →
  ∀ u, u ∈ r → u ∈ links ∨ urlparse_netloc W u = Ok (domain self).
Proof.
  induction anchors as [| href anchors IH]; intros links self r Hk Hex u Hu;
    simpl in Hex.
  - injection Hex as <-. by left.
  - destruct (truthy href); [| by eapply IH].
    unfold bind, lift, call_is_valid_url in Hex.
    destruct (urljoin W url (default "" href)) as [abs | e]; [| done].
    destruct Hk as [Hnone | Hsome].
    + by rewrite Hnone in Hex.
    + rewrite Hsome in Hex. unfold is_valid_url_spec in Hex.
      destruct (urlparse_netloc W abs) as [h | e] eqn:Hh; [| done].
      case_bool_decide as Hd.
      * destruct (IH _ _ _ (or_intror Hsome) Hex u Hu) as [Hin | ?]; [| by right].
        apply elem_of_union in Hin as [->%elem_of_singleton | ?]; [right | by left].
        by rewrite Hh, Hd.
      * by eapply IH; [right | |].
Qed.

Lemma crawl_page_in_domain url self links self' :
  lookup_known W →
  crawl_page W url self = (Ok links, self') →
  ∀ u, u ∈ links → urlparse_netloc W u = Ok (domain self).
Proof.
  intros Hk Hcall u Hu.
  destruct (crawl_page_outcome url self) as (l & s & Heq & Hout).
  rewrite Heq in Hcall. injection Hcall as -> ->.
  destruct Hout as [e _ | text s ip l _ _ _ self1 Hex | text s ip e _ _ _ self1 _];
    [set_solver | | set_solver].
  destruct (extract_links_in_domain _ _ _ _ _ Hk Hex u Hu) as [? | ?]; [set_solver | done].
Qed.

(** The worker only ever touches the database of [self]. *)
Lemma page_outcome_frame url self links self' :
  page_outcome W url self links self' → ∃ db, self' = set_db db self.
Proof.
  destruct 1; unfold logged, saved; eauto.
Qed.

Lemma crawl_page_frame url self r self' :
  crawl_page W url self = (r, self') → ∃ db, self' = set_db db self.
Proof.
  destruct (crawl_page_outcome url self) as (links & s' & Heq & Hout).
  rewrite Heq. intros [= <- <-]. by eapply page_outcome_frame.
Qed.

(** The UNIQUE constraints are kept by the insert on its own, whatever was
    tested before it, and so by the worker. *)
Lemma insert_crawl_results_unique url title content_hash ip self :
  unique_rows (results self) →
  unique_rows (results (insert_crawl_results url title content_hash ip self).2).
Proof.
  intros [Hu Hh]. unfold insert_crawl_results.
  case_bool_decide as Hurl; [done |]. case_bool_decide as Hhash; [done |].
  rewrite Exists_fmap_elem in Hurl, Hhash. cbn [snd]. rewrite results_set_db.
  split; rewrite fmap_app; simpl; apply NoDup_app; repeat split; try done;
    try (apply NoDup_singleton); intros x Hx Hx';
    apply list_elem_of_singleton in Hx'; by subst.
Qed.

Lemma crawl_page_unique url self :
  unique_rows (results self) → unique_rows (results (crawl_page W url self).2).
Proof.
  intros Huniq.
  destruct (crawl_page_outcome url self) as (links & self' & -> & Hout). simpl.
  destruct Hout as [e _ | text s ip l _ _ _ self1 _ | text s ip e _ _ _ self1 _];
    [done | |]; unfold self1, logged, saved; rewrite !results_set_db;
    by apply saved_rows_unique.
Qed.

(** ** The scheduler: selecting a batch *)

Lemma take_batch_spec workers queue : ∀ vis batch queue' vis' batch',
  take_batch workers queue vis batch = (queue', vis', batch') →
  ∃ new,
    batch' = batch ++ new
    ∧ NoDup new
    ∧ (∀ u, u ∈ new → (u ∉ vis) ∧ (u ∈ queue))
    ∧ vis' = vis ∪ list_to_set new
    ∧ (queue' `suffix_of` queue)
    ∧ (Z.of_nat (length batch') ≤ Z.max (Z.of_nat (length batch)) workers).
Proof.
  assert (∀ (q : list string) (vis : gset string) (batch : list string),
    ∃ new : list string,
      batch = batch ++ new ∧ NoDup new ∧ (∀ u, u ∈ new → (u ∉ vis) ∧ (u ∈ q))
      ∧ vis = vis ∪ list_to_set new ∧ (q `suffix_of` q)
      ∧ (Z.of_nat (length batch) ≤ Z.max (Z.of_nat (length batch)) workers)) as Hstop.
  { intros q vis batch. exists []. rewrite app_nil_r. split; [done |].
    split; [constructor |]. split; [by intros u Hu%elem_of_nil |].
    split; [simpl; by rewrite union_empty_r_L |]. split; [done | lia]. }
  induction queue as [| url queue IH]; intros vis batch queue' vis' batch' Heq;
    simpl in Heq.
  - injection Heq as <- <- <-. apply Hstop.
  - destruct (Z.ltb_spec (Z.of_nat (length batch)) workers) as [Hlt | Hge].
    2: { injection Heq as <- <- <-. apply Hstop. }
    destruct (decide (url ∈ vis)) as [Hin | Hnin].
    + destruct (IH _ _ _ _ _ Heq) as (new & -> & Hnd & Hnew & -> & Hsuf & Hlen).
      exists new. split; [done |]. split; [done |]. split.
      { intros u Hu. destruct (Hnew u Hu). split; [done |]. by apply list_elem_of_further. }
      split; [done |]. split; [by apply suffix_cons_r | done].
    + destruct (IH _ _ _ _ _ Heq) as (new & -> & Hnd & Hnew & -> & Hsuf & Hlen).
      exists (url :: new). split; [by rewrite <- app_assoc |]. split.
      { constructor; [| done]. intros Hu. destruct (Hnew url Hu) as [Hv _].
        apply Hv. set_solver. }
      split.
      { intros u [-> | Hu]%elem_of_cons; [split; [done | left] |].
        destruct (Hnew u Hu) as [Hv Hq]. split; [set_solver | by apply list_elem_of_further]. }
      split; [set_solver |]. split; [by apply suffix_cons_r |].
      rewrite !length_app in *. simpl in *. lia.
Qed.

(** The inner loop only stops short of [workers] urls when the queue is
    used up. *)
Lemma take_batch_exhausts workers queue : ∀ vis batch queue' vis' batch',
  take_batch workers queue vis batch = (queue', vis', batch') →
  Z.of_nat (length batch') < workers → queue' = [].
Proof.
  induction queue as [| url queue IH]; intros vis batch queue' vis' batch' Heq Hlt;
    simpl in Heq.
  - by injection Heq as <- <- <-.
  - destruct (Z.ltb_spec (Z.of_nat (length batch)) workers) as [Hb | Hb].
    2: { injection Heq as <- <- <-. lia. }
    destruct (decide (url ∈ vis)); by eapply IH.
Qed.

(** ** The scheduler: running a batch and gathering the links *)

Lemma set_db_id self : set_db (conn_db (conn self)) self = self.
Proof. by destruct self as [? ? ? ? ? ? []]. Qed.

Lemma set_visited_id self : set_visited (visited self) self = self.
Proof. by destruct self. Qed.

Lemma evolves_refl self : evolves self self.
Proof. exists (visited self), (conn_db (conn self)). by destruct self as [? ? ? ? ? ? []]. Qed.

Lemma evolves_trans a b c : evolves a b → evolves b c → evolves a c.
Proof. intros (v1 & d1 & ->) (v2 & d2 & ->). by exists v2, d2. Qed.

Lemma evolves_set_db db self : evolves self (set_db db self).
Proof. exists (visited self), db. by destruct self. Qed.

Lemma evolves_set_visited vis self : evolves self (set_visited vis self).
Proof. exists vis, (conn_db (conn self)). by destruct self as [? ? ? ? ? ? []]. Qed.

Lemma evolves_fields self s :
  evolves self s →
  start_url s = start_url self ∧ delay s = delay self ∧ domain s = domain self
  ∧ max_workers s = max_workers self ∧ db_config s = db_config self
  ∧ conn_path (conn s) = conn_path (conn self).
Proof. by intros (v & d & ->). Qed.

(** Every future of a batch holds a set of links, never an exception; each
    comes from a call of [crawl_page] on the object as some earlier worker
    left it; the visited set is as it was. *)
Lemma run_workers_spec urls : ∀ self rs self',
  run_workers W urls self = (rs, self') →
  (∃ db, self' = set_db db self)
  ∧ Forall (λ r, ∃ links url s s',
              r = Ok links ∧ crawl_page W url s = (Ok links, s')
              ∧ (∃ db, s = set_db db self)) rs.
Proof.
  induction urls as [| url urls IH]; intros self rs self' Heq; simpl in Heq.
  - injection Heq as <- <-. split; [| constructor].
    exists (conn_db (conn self)). by rewrite set_db_id.
  - destruct (crawl_page_outcome url self) as (links & self1 & Hpage & Hout).
    rewrite Hpage in Heq.
    destruct (run_workers W urls self1) as [rs' self2] eqn:Hrest.
    injection Heq as <- <-.
    destruct (IH _ _ _ Hrest) as [(db2 & ->) Hall].
    destruct (page_outcome_frame _ _ _ _ Hout) as (db1 & ->).
    split; [by exists db2 |]. constructor.
    + exists links, url, self, (set_db db1 self). split; [done |]. split; [done |].
      exists (conn_db (conn self)). by rewrite set_db_id.
    + eapply Forall_impl; [exact Hall |]. simpl.
      intros r (l & u & s1 & s2 & -> & Hcall & (db & ->)).
      exists l, u, (set_db db self), s2. split; [done |]. split; [done |]. by exists db.
Qed.

Lemma offer_spec vis queue new_links u :
  u ∈ offer vis queue new_links ↔ u ∈ queue ∨ (u ∈ new_links ∧ u ∉ vis).
Proof.
  unfold offer. rewrite elem_of_app, list_elem_of_filter, elem_of_elements. tauto.
Qed.

Lemma collect_results_spec futures vis : ∀ queue,
  Forall (λ r, ∃ links : gset string, r = Ok links) futures →
  ∃ queue',
    collect_results futures vis queue = Ok queue'
    ∧ ∀ u, u ∈ queue' →
        u ∈ queue ∨ ((u ∉ vis) ∧ ∃ links : gset string, Ok links ∈ futures ∧ u ∈ links).
Proof.
  induction futures as [| r futures IH]; intros queue Hall; simpl.
  - exists queue. split; [done |]. auto.
  - apply Forall_cons in Hall as [(links & ->) Hall].
    destruct (IH (offer vis queue links) Hall) as (queue' & -> & Hq).
    exists queue'. split; [done |]. intros u Hu.
    destruct (Hq u Hu) as [Hin | (Hv & l & Hl & Hul)].
    + apply offer_spec in Hin as [? | [? ?]]; [by left |].
      right. split; [done |]. exists links. split; [left | done].
    + right. split; [done |]. exists l. split; [by right | done].
Qed.

(** ** The scheduler: one turn of the outer loop *)

Lemma time_sleep_spec secs :
  (0 ≤ secs ∧ time_sleep secs = Ok tt)
  ∨ (secs < 0 ∧ time_sleep secs = Raise (ValueError "sleep length must be non-negative")).
Proof.
  unfold time_sleep. destruct (Z.ltb_spec secs 0); [right | left]; done.
Qed.

Lemma crawl_turn_spec max_pages queue self t self' :
  crawl_turn W max_pages queue self = (t, self') →
  match t with
  | Stop queue' =>
      (queue' `suffix_of` queue) ∧ self' = self
      ∧ (queue' = [] ∨ max_pages ≤ Z.of_nat (size (visited self)) ∨ max_workers self ≤ 0)
  | Next queue' ev =>
      batch_facts max_pages queue self self' ev
      ∧ 0 ≤ delay self
      ∧ ∀ u, u ∈ queue' →
          u ∈ queue
          ∨ ((u ∉ visited self') ∧
             ∃ links url s s', crawl_page W url s = (Ok links, s')
                               ∧ evolves self s ∧ u ∈ links)
  | Fail e ev =>
      batch_facts max_pages queue self self' ev
      ∧ delay self < 0
      ∧ e = ValueError "sleep length must be non-negative"
  end.
Proof.
  unfold crawl_turn.
  destruct (negb (bool_decide (queue = [])) &&
            (Z.of_nat (size (visited self)) <? max_pages)) eqn:Hcond.
  2: { intros [= <- <-]. split; [done |]. split; [done |].
       apply andb_false_iff in Hcond as [Hq | Hb].
       - left. by apply negb_false_iff, bool_decide_eq_true in Hq.
       - right; left. by apply Z.ltb_ge in Hb. }
  apply andb_true_iff in Hcond as [Hq Hbudget].
  apply negb_true_iff, bool_decide_eq_false in Hq. apply Z.ltb_lt in Hbudget.
  destruct (take_batch (max_workers self) queue (visited self) [])
    as [[queue1 vis1] batch] eqn:Htake.
  pose proof (take_batch_exhausts _ _ _ _ _ _ _ Htake) as Hexh.
  apply take_batch_spec in Htake as (new & Hbatch & Hnd & Hnew & -> & Hsuf & Hlen).
  simpl in Hbatch. subst new. change (length []) with 0%nat in Hlen.
  case_bool_decide as Hempty.
  { intros [= <- <-]. subst batch. simpl. rewrite union_empty_r_L.
    rewrite set_visited_id. split; [done |]. split; [done |].
    change (length []) with 0%nat in Hexh.
    destruct (Z.le_gt_cases (max_workers self) 0); [auto |]. left. apply Hexh. lia. }
  set (self1 := set_visited (visited self ∪ list_to_set batch) self).
  destruct (run_workers W (as_completed W batch) self1) as [futures self2] eqn:Hrun.
  apply run_workers_spec in Hrun as [(db2 & ->) Hfut].
  assert (batch_facts max_pages queue self (set_db db2 self1)
            (mkEvent (visited self) batch (visited self1))) as Hfacts.
  { unfold batch_facts; simpl. repeat (split; [done |]).
    split; [| split; [done | split; [done | eexists; reflexivity]]].
    destruct batch as [| u batch']; [done |].
    change (length (u :: batch')) with (S (length batch')) in *. lia. }
  destruct (collect_results_spec futures (visited (set_db db2 self1)) queue1)
    as (queue2 & -> & Hq2).
  { eapply Forall_impl; [exact Hfut |]. simpl. intros r (l & _ & _ & _ & -> & _). eauto. }
  destruct (time_sleep_spec (delay (set_db db2 self1))) as [[Hd ->] | [Hd ->]];
    intros [= <- <-].
  - split; [done |]. split; [done |]. intros u Hu.
    destruct (Hq2 u Hu) as [Hin | (Hv & l & Hl & Hul)].
    + left. by eapply elem_of_suffix.
    + right. split; [done |].
      rewrite Forall_forall in Hfut.
      destruct (Hfut _ Hl) as (l' & url & s & s' & [= <-] & Hcall & (db & ->)).
      exists l, url, (set_db db self1), s'. split; [done |]. split; [| done].
      eapply evolves_trans; [apply evolves_set_visited | apply evolves_set_db].
  - done.
Qed.

(** ** The scheduler: the outer loop *)

(** Loop rule: [Inv] holds at the head of the loop and is kept by every turn
    that runs a batch; [Post] holds of whatever makes the loop end. *)
Lemma crawl_loop_rule max_pages
    (Inv : list string → list batch_event → WebCrawler → Prop)
    (Post : py_result (list string) → list batch_event → WebCrawler → Prop) :
  (∀ queue trace self t self',
     Inv queue trace self →
     crawl_turn W max_pages queue self = (t, self') →
     match t with
     | Stop queue' => Post (Ok queue') trace self'
     | Next queue' ev => Inv queue' (trace ++ [ev]) self'
     | Fail e ev => Post (Raise e) (trace ++ [ev]) self'
     end) →
  ∀ fuel queue trace self r trace' self',
    Inv queue trace self →
    crawl_loop W fuel max_pages queue trace self = Some (r, trace', self') →
    Post r trace' self'.
Proof.
  intros Hstep. induction fuel as [| fuel IH]; intros queue trace self r trace' self' Hinv Hrun;
    simpl in Hrun; [done |].
  destruct (crawl_turn W max_pages queue self) as [t self1] eqn:Hturn.
  specialize (Hstep _ _ _ _ _ Hinv Hturn).
  destruct t as [queue' | queue' ev | e ev].
  - by injection Hrun as <- <- <-.
  - exact (IH _ _ _ _ _ _ Hstep Hrun).
  - by injection Hrun as <- <- <-.
Qed.

(** [crawl] is the loop from the seed, once the pool could be created. *)
Lemma crawl_cases max_pages self :
  (max_workers self ≤ 0
   ∧ crawl W max_pages self
     = Some (Raise (ValueError "max_workers must be greater than 0"), [], self))
  ∨ (0 < max_workers self
     ∧ crawl W max_pages self
       = crawl_loop W (crawl_fuel max_pages self) max_pages [start_url self] [] self).
Proof.
  unfold crawl. destruct (Z.leb_spec (max_workers self) 0); [left | right]; done.
Qed.

Lemma dispatched_snoc trace ev :
  dispatched (trace ++ [ev]) = dispatched trace ++ ev_batch ev.
Proof.
  unfold dispatched. rewrite fmap_app, concat_app. simpl. by rewrite app_nil_r.
Qed.

Lemma batch_facts_evolves max_pages queue self self' ev :
  batch_facts max_pages queue self self' ev → evolves self self'.
Proof.
  intros (_ & _ & _ & _ & _ & _ & _ & _ & _ & (db & ->)).
  eapply evolves_trans; [apply evolves_set_visited | apply evolves_set_db].
Qed.

Lemma batch_facts_size max_pages queue self self' ev :
  batch_facts max_pages queue self self' ev →
  size (visited self') = (size (visited self) + length (ev_batch ev))%nat
  ∧ (0 < length (ev_batch ev))%nat.
Proof.
  intros (_ & _ & _ & Hne & Hnd & Hnew & _ & _ & -> & _). split.
  - rewrite size_union, size_list_to_set by (done || set_solver). done.
  - destruct (ev_batch ev); [done | simpl; lia].
Qed.

(** The loop ends within the fuel [crawl] gives it: every batch that is run
    brings the visited set at least one url closer to the budget. *)
Lemma crawl_loop_terminates max_pages : ∀ fuel queue trace self,
  (Z.to_nat (max_pages - Z.of_nat (size (visited self))) < fuel)%nat →
  ∃ r trace' self', crawl_loop W fuel max_pages queue trace self = Some (r, trace', self').
Proof.
  induction fuel as [| fuel IH]; intros queue trace self Hfuel; [lia |]. simpl.
  destruct (crawl_turn W max_pages queue self) as [t self1] eqn:Hturn.
  pose proof (crawl_turn_spec _ _ _ _ _ Hturn) as Hspec.
  destruct t as [queue' | queue' ev | e ev]; [by eauto | | by eauto].
  destruct Hspec as (Hfacts & _ & _).
  destruct (batch_facts_size _ _ _ _ _ Hfacts) as [Hsize Hpos].
  destruct Hfacts as (_ & Hbudget & _).
  apply IH. rewrite Hsize. lia.
Qed.

End Facts.

(** ** Counting rows *)

Lemma filter_eq_length_NoDup {A B} `{EqDecision B} (f : A → B) (b : B) (l : list A) :
  NoDup (f <$> l) →
  length (filter (λ y, f y = b) l) = if decide (b ∈ f <$> l) then 1%nat else 0%nat.
Proof.
  induction l as [| a l IH]; intros Hnd; [done |].
  rewrite fmap_cons in Hnd. apply NoDup_cons in Hnd as [Hnotin Hnd].
  rewrite filter_cons, fmap_cons. specialize (IH Hnd).
  destruct (decide (f a = b)) as [<- | Hne]; simpl.
  - rewrite IH. rewrite decide_False by done.
    rewrite decide_True by left. done.
  - rewrite IH. destruct (decide (b ∈ f <$> l)) as [Hin | Hnin].
    + rewrite decide_True by (by right). done.
    + rewrite decide_False; [done |]. intros [? | ?]%elem_of_cons; by subst.
Qed.

(** * The worker's guarantees *)

Section Worker.
Context (W : World).

(** A page that was fetched and parsed is stored (if new) and logged as a
    success, whatever happens to its links afterwards. *)
Lemma crawl_page_fetched url text s ip self :
  requests_get W url = Ok text →
  BeautifulSoup W text = Ok s →
  urlparse_netloc W url = Ok ip →
  let self' := (crawl_page W url self).2 in
  results self' = saved_rows W url (title_of s) text (Some ip) (results self)
  ∧ mkLogRow url "success" None ∈ logs self'.
Proof.
  intros Hget Hparse Hip self'.
  destruct (crawl_page_outcome W url self) as (links & s' & Heq & Hout).
  subst self'. rewrite Heq. simpl.
  destruct Hout as [e Hfail | text' s0 ip' l Hg Hp Hi self1 _
                    | text' s0 ip' e Hg Hp Hi self1 _].
  - destruct Hfail as [Hf | [(t & Hg & Hf) | (t & s0 & Hg & Hp & Hf)]]; congruence.
  - assert (text' = text) as -> by congruence.
    assert (s0 = s) as -> by congruence. assert (ip' = ip) as -> by congruence.
    split; [done |]. unfold self1, logged. rewrite logs_set_db.
    apply elem_of_app. right. left.
  - assert (text' = text) as -> by congruence.
    assert (s0 = s) as -> by congruence. assert (ip' = ip) as -> by congruence.
    split; [done |]. unfold self1, logged. rewrite !logs_set_db.
    apply elem_of_app. left. apply elem_of_app. right. left.
Qed.

(** C3. Two successfully fetched pages with the same content fingerprint:
    once the first has been handled (its url not stored before), the store
    holds a record with that fingerprint; handling the second, at any later
    point of the append-only store, inserts nothing, yet logs a success; the
    store then holds exactly one record with the fingerprint. And
    [content_hash] (like [url]) is unique across all stored records: no call
    of the worker, and no insert, breaks the two UNIQUE constraints. *)
Theorem duplicate_content_stored_once url1 url2 text1 text2 s1 s2 ip1 ip2
    (self later : WebCrawler) :
  requests_get W url1 = Ok text1 → BeautifulSoup W text1 = Ok s1 →
  urlparse_netloc W url1 = Ok ip1 →
  requests_get W url2 = Ok text2 → BeautifulSoup W text2 = Ok s2 →
  urlparse_netloc W url2 = Ok ip2 →
  get_content_hash W text1 = get_content_hash W text2 →
  url1 ∉ res_url <$> results self →
  results (crawl_page W url1 self).2 `prefix_of` results later →
  unique_rows (results later) →
  let self1 := (crawl_page W url1 self).2 in
  let self2 := (crawl_page W url2 later).2 in
  (∃ row, row ∈ results self1 ∧ res_content_hash row = get_content_hash W text1)
  ∧ results self2 = results later
  ∧ length (filter (λ row, res_content_hash row = get_content_hash W text2)
                   (results self2)) = 1%nat
  ∧ mkLogRow url2 "success" None ∈ logs self2
  ∧ (∀ url s, unique_rows (results s) → unique_rows (results (crawl_page W url s).2))
  ∧ (∀ url title content_hash ip s,
       unique_rows (results s) →
       unique_rows (results (insert_crawl_results url title content_hash ip s).2)).
Proof.
  intros Hg1 Hp1 Hi1 Hg2 Hp2 Hi2 Hhash Hfresh Hpre Hlater self1 self2.
  destruct (crawl_page_fetched url1 text1 s1 ip1 self Hg1 Hp1 Hi1) as [Hres1 _].
  destruct (crawl_page_fetched url2 text2 s2 ip2 later Hg2 Hp2 Hi2) as [Hres2 Hlog2].
  fold self1 in Hres1. fold self2 in Hres2, Hlog2.
  assert (∃ row, row ∈ results self1
                 ∧ res_content_hash row = get_content_hash W text1) as Hfirst.
  { rewrite Hres1. unfold saved_rows. case_bool_decide as Hh.
    - apply Exists_exists in Hh as (row & ? & ?). by exists row.
    - rewrite bool_decide_eq_false_2 by (by rewrite Exists_fmap_elem).
      eexists. split; [apply elem_of_app; right; left | done]. }
  assert (get_content_hash W text2 ∈ res_content_hash <$> results later) as Hin.
  { destruct Hfirst as (row & Hrow & Hh). rewrite <- Hhash, <- Hh.
    apply list_elem_of_fmap_2. fold self1 in Hpre.
    destruct Hpre as [k ->]. apply elem_of_app. by left. }
  assert (results self2 = results later) as Hsame.
  { rewrite Hres2. unfold saved_rows.
    rewrite bool_decide_eq_true_2; [done |]. by rewrite Exists_fmap_elem. }
  split; [done |]. split; [done |]. rewrite Hsame. split; [| split; [done | split]].
  - rewrite filter_eq_length_NoDup by apply Hlater. by rewrite decide_True.
  - intros url s. apply crawl_page_unique.
  - intros url title h ip s. apply insert_crawl_results_unique.
Qed.

End Worker.

(** * The scheduler's guarantees *)

Section Scheduler.
Context (W : World).

(** C9. For every page budget the crawl loop terminates (each worker call
    returns, [crawl_page] being total): [crawl] yields a run, of at most
    [max_pages - len(visited)] batches; each batch that was run is non-empty
    and makes the visited set strictly larger; the visited set only grows;
    and the loop ends with the frontier exhausted (which is also what the
    [break] on an empty batch means) or the budget reached, unless the pool
    could not be created or [time.sleep] refused a negative delay. *)
Theorem crawl_terminates (max_pages : Z) (self : WebCrawler) :
  ∃ r trace self',
    crawl W max_pages self = Some (r, trace, self')
    ∧ Z.of_nat (length trace) ≤ Z.max 0 (max_pages - Z.of_nat (size (visited self)))
    ∧ Forall (λ ev, ev_batch ev ≠ []
                    ∧ ev_visited_before ev ⊂ ev_visited_at_dispatch ev) trace
    ∧ visited self ⊆ visited self'
    ∧ match r with
      | Ok queue => queue = [] ∨ max_pages ≤ Z.of_nat (size (visited self'))
      | Raise _ => max_workers self ≤ 0 ∨ delay self < 0
      end.
Proof.
  destruct (crawl_cases W max_pages self) as [[Hw ->] | [Hw ->]].
  { eexists _, _, _. split; [done |]. simpl. split; [lia |]. split; [constructor |].
    split; [done | by left]. }
  destruct (crawl_loop_terminates W max_pages (crawl_fuel max_pages self)
              [start_url self] [] self) as (r & trace & self' & Hrun).
  { unfold crawl_fuel. lia. }
  exists r, trace, self'. split; [done |].
  set (size0 := Z.of_nat (size (visited self))).
  set (good := λ ev : batch_event,
         ev_batch ev ≠ [] ∧ ev_visited_before ev ⊂ ev_visited_at_dispatch ev).
  pose (Inv := λ (_ : list string) (tr : list batch_event) (s : WebCrawler),
         evolves self s
         ∧ Z.of_nat (length tr) ≤ Z.of_nat (size (visited s)) - size0
         ∧ Z.of_nat (length tr) ≤ Z.max 0 (max_pages - size0)
         ∧ Forall good tr ∧ visited self ⊆ visited s).
  pose (Post := λ (r : py_result (list string)) (tr : list batch_event) (s : WebCrawler),
         Z.of_nat (length tr) ≤ Z.max 0 (max_pages - size0)
         ∧ Forall good tr ∧ visited self ⊆ visited s
         ∧ match r with
           | Ok queue => queue = [] ∨ max_pages ≤ Z.of_nat (size (visited s))
           | Raise _ => max_workers self ≤ 0 ∨ delay self < 0
           end).
  change (Post r trace self').
  refine (crawl_loop_rule W max_pages Inv Post _ _ _ _ _ _ _ _ _ Hrun).
  2: { unfold Inv. split; [apply evolves_refl |]. simpl. subst size0.
       split; [lia |]. split; [lia |]. split; [constructor | done]. }
  clear r trace self' Hrun.
  intros queue tr s t s' (Hev & Hlen1 & Hlen2 & Hgood & Hsub) Hturn.
  apply crawl_turn_spec in Hturn.
  destruct (evolves_fields _ _ Hev) as (_ & Hdelay & _ & Hworkers & _).
  assert (∀ ev, batch_facts max_pages queue s s' ev →
            Z.of_nat (length (tr ++ [ev])) ≤ Z.of_nat (size (visited s')) - size0
            ∧ Z.of_nat (length (tr ++ [ev])) ≤ Z.max 0 (max_pages - size0)
            ∧ Forall good (tr ++ [ev]) ∧ visited self ⊆ visited s'
            ∧ evolves self s') as Hbatch.
  { intros ev Hfacts.
    destruct (batch_facts_size _ _ _ _ _ Hfacts) as [Hsize Hpos].
    destruct Hfacts as (_ & Hbudget & Hbefore & Hne & _ & Hnew & _ & Hat & Hvis & (db & Hs')).
    rewrite length_app. simpl.
    split; [lia |]. split; [lia |]. split; [| split].
    - apply Forall_app. split; [done |]. constructor; [| constructor].
      split; [done |]. rewrite Hbefore, Hat.
      destruct (ev_batch ev) as [| u l] eqn:Hb; [done |].
      destruct (Hnew u) as [Hu _]; [left |]. set_solver.
    - set_solver.
    - eapply evolves_trans; [exact Hev |]. rewrite Hs'.
      eapply evolves_trans; [apply evolves_set_visited | apply evolves_set_db]. }
  destruct t as [queue' | queue' ev | e ev].
  - destruct Hturn as (_ & -> & Hexit). unfold Post.
    split; [done |]. split; [done |]. split; [done |].
    destruct Hexit as [? | [? | ?]]; [by left | by right | lia].
  - destruct Hturn as (Hfacts & _ & _). unfold Inv.
    destruct (Hbatch _ Hfacts) as (? & ? & ? & ? & ?). done.
  - destruct Hturn as (Hfacts & Hneg & _). unfold Post.
    destruct (Hbatch _ Hfacts) as (? & ? & ? & ? & ?).
    split; [done |]. split; [done |]. split; [done |]. right. lia.
Qed.

(** C8. The budget is tested before each batch, not per page: every batch
    that was started was started with fewer than [max_pages] urls visited
    (so none is started once the budget is reached), holds at most
    [max_workers] urls, and leaves at most [max_pages + max_workers - 1] urls
    visited; so does the whole run, from a visited set that was not already
    larger. *)
Theorem budget_checked_before_each_batch (max_pages : Z) (self : WebCrawler)
    r trace self' :
  crawl W max_pages self = Some (r, trace, self') →
  Forall (λ ev, visited self ⊆ ev_visited_before ev
                ∧ Z.of_nat (size (ev_visited_before ev)) < max_pages
                ∧ Z.of_nat (length (ev_batch ev)) ≤ max_workers self
                ∧ Z.of_nat (size (ev_visited_at_dispatch ev))
                  ≤ max_pages + max_workers self - 1) trace
  ∧ Z.of_nat (size (visited self'))
    ≤ Z.max (Z.of_nat (size (visited self))) (max_pages + max_workers self - 1).
Proof.
  destruct (crawl_cases W max_pages self) as [[Hw ->] | [Hw ->]].
  { intros [= <- <- <-]. split; [constructor | lia]. }
  intros Hrun.
  set (bound := max_pages + max_workers self - 1).
  set (good := λ ev : batch_event,
         visited self ⊆ ev_visited_before ev
         ∧ Z.of_nat (size (ev_visited_before ev)) < max_pages
         ∧ Z.of_nat (length (ev_batch ev)) ≤ max_workers self
         ∧ Z.of_nat (size (ev_visited_at_dispatch ev)) ≤ bound).
  pose (Post := λ (_ : py_result (list string)) (tr : list batch_event) (s : WebCrawler),
         Forall good tr
         ∧ Z.of_nat (size (visited s)) ≤ Z.max (Z.of_nat (size (visited self))) bound).
  pose (Inv := λ (_ : list string) (tr : list batch_event) (s : WebCrawler),
         evolves self s ∧ visited self ⊆ visited s ∧ Post (Ok []) tr s).
  change (Post r trace self').
  refine (crawl_loop_rule W max_pages Inv Post _ _ _ _ _ _ _ _ _ Hrun).
  2: { unfold Inv, Post. split; [apply evolves_refl |]. split; [done |].
       split; [constructor | lia]. }
  clear r trace self' Hrun.
  intros queue tr s t s' (Hev & Hsub & Hgood & Hsize) Hturn.
  apply crawl_turn_spec in Hturn.
  destruct (evolves_fields _ _ Hev) as (_ & _ & _ & Hworkers & _).
  assert (∀ ev, batch_facts max_pages queue s s' ev →
            Inv [] (tr ++ [ev]) s') as Hbatch.
  { intros ev Hfacts.
    pose proof (batch_facts_evolves _ _ _ _ _ Hfacts) as Hev'.
    destruct (batch_facts_size _ _ _ _ _ Hfacts) as [Hsz Hpos].
    destruct Hfacts as (_ & Hbudget & Hbefore & _ & _ & _ & Hlen & Hat & Hvis & _).
    assert (Z.of_nat (size (visited s')) ≤ bound) as Hle by (subst bound; lia).
    split; [by eapply evolves_trans |]. split; [set_solver |]. split; [| lia].
    apply Forall_app. split; [done |]. constructor; [| constructor].
    unfold good. rewrite Hbefore, Hat, <- Hvis. repeat split; try done; lia. }
  destruct t as [queue' | queue' ev | e ev].
  - destruct Hturn as (_ & -> & _). by split.
  - destruct Hturn as (Hfacts & _). by apply Hbatch.
  - destruct Hturn as (Hfacts & _). by apply Hbatch.
Qed.

(** C4. Within a run no url is dispatched twice: the urls of all batches,
    in dispatch order, are pairwise distinct and none was visited before the
    run; each url of a batch is in [self.visited] when the batch is
    submitted, before any fetch; the visited set only grows (every
    intermediate visited set is included in the next and in the final one,
    which is the initial one plus all dispatched urls). *)
Theorem no_url_dispatched_twice (max_pages : Z) (self : WebCrawler)
    r trace self' :
  crawl W max_pages self = Some (r, trace, self') →
  NoDup (dispatched trace)
  ∧ (∀ u, u ∈ dispatched trace → u ∉ visited self)
  ∧ visited self' = visited self ∪ list_to_set (dispatched trace)
  ∧ Forall (λ ev, visited self ⊆ ev_visited_before ev
                  ∧ ev_visited_at_dispatch ev
                    = ev_visited_before ev ∪ list_to_set (ev_batch ev)
                  ∧ ev_visited_at_dispatch ev ⊆ visited self') trace.
Proof.
  destruct (crawl_cases W max_pages self) as [[Hw ->] | [Hw ->]].
  { intros [= <- <- <-]. unfold dispatched; simpl.
    split; [constructor |]. split; [by intros u Hu%elem_of_nil |].
    split; [by rewrite union_empty_r_L | constructor]. }
  intros Hrun.
  pose (Post := λ (_ : py_result (list string)) (tr : list batch_event) (s : WebCrawler),
         NoDup (dispatched tr)
         ∧ (∀ u, u ∈ dispatched tr → u ∉ visited self)
         ∧ visited s = visited self ∪ list_to_set (dispatched tr)
         ∧ Forall (λ ev, visited self ⊆ ev_visited_before ev
                         ∧ ev_visited_at_dispatch ev
                           = ev_visited_before ev ∪ list_to_set (ev_batch ev)
                         ∧ ev_visited_at_dispatch ev ⊆ visited s) tr).
  pose (Inv := λ (_ : list string) (tr : list batch_event) (s : WebCrawler),
         Post (Ok []) tr s).
  change (Post r trace self').
  refine (crawl_loop_rule W max_pages Inv Post _ _ _ _ _ _ _ _ _ Hrun).
  2: { unfold Inv, Post, dispatched; simpl.
       split; [constructor |]. split; [by intros u Hu%elem_of_nil |].
       split; [by rewrite union_empty_r_L | constructor]. }
  clear r trace self' Hrun.
  intros queue tr s t s' (Hnd & Hfresh & Hvis & Hall) Hturn.
  apply crawl_turn_spec in Hturn.
  assert (∀ ev, batch_facts max_pages queue s s' ev →
            Post (Ok []) (tr ++ [ev]) s') as Hbatch.
  { intros ev (_ & _ & Hbefore & _ & Hndb & Hnew & _ & Hat & Hvis' & _).
    unfold Post. rewrite dispatched_snoc.
    split; [| split; [| split]].
    - apply NoDup_app. split; [done |]. split; [| done].
      intros u Hu Hb. destruct (Hnew u Hb) as [Hnv _]. apply Hnv. rewrite Hvis.
      set_solver.
    - intros u [Hu | Hu]%elem_of_app; [by apply Hfresh |].
      destruct (Hnew u Hu) as [Hnv _]. rewrite Hvis in Hnv. set_solver.
    - rewrite Hvis', Hvis, list_to_set_app_L. set_solver.
    - apply Forall_app. split.
      + eapply Forall_impl; [exact Hall |]. simpl.
        intros ev' (? & ? & ?). split; [done |]. split; [done |]. set_solver.
      + constructor; [| constructor]. rewrite Hbefore, Hat, Hvis'.
        split; [set_solver |]. split; [done |]. done. }
  destruct t as [queue' | queue' ev | e ev].
  - by destruct Hturn as (_ & -> & _).
  - destruct Hturn as (Hfacts & _). by apply Hbatch.
  - destruct Hturn as (Hfacts & _). by apply Hbatch.
Qed.

(** The filter of line 141 by itself tests the visited set only: the queue
    gains one occurrence of every offered link that is not visited, whether
    or not it is already pending; a batch, at the other end, never takes a
    visited url nor the same url twice. *)
Lemma offer_tests_visited_only (vis : gset string) (queue : list string)
    (new_links : gset string) :
  (∀ u, length (filter (λ x, x = u) (offer vis queue new_links))
        = (length (filter (λ x, x = u) queue)
           + if decide (u ∈ new_links ∧ u ∉ vis) then 1 else 0)%nat)
  ∧ (∀ workers,
       let '(_, _, batch) := take_batch workers (offer vis queue new_links) vis [] in
       NoDup batch ∧ ∀ u, u ∈ batch → u ∉ vis).
Proof.
  split.
  - intros u. unfold offer. rewrite filter_app, length_app. f_equal.
    pose proof (filter_eq_length_NoDup (λ x : string, x) u
                  (filter (λ link, link ∉ vis) (elements new_links))) as Hcount.
    rewrite list_fmap_id in Hcount. rewrite Hcount.
    + destruct (decide (u ∈ new_links ∧ u ∉ vis)) as [[? ?] | Hn].
      * rewrite decide_True; [done |]. apply list_elem_of_filter.
        split; [done |]. by apply elem_of_elements.
      * rewrite decide_False; [done |].
        intros [? ?%elem_of_elements]%list_elem_of_filter. by apply Hn.
    + apply NoDup_filter, NoDup_elements.
  - intros workers.
    destruct (take_batch workers (offer vis queue new_links) vis [])
      as [[queue' vis'] batch] eqn:Htake.
    apply take_batch_spec in Htake as (new & Hb & Hnd & Hnew & _).
    simpl in Hb. subst new. split; [done |]. intros u Hu. by apply Hnew.
Qed.

(** C1. Link filtering. With [is_valid_url] as modelled from the spec (and
    also with the lookup failing, as in the source): every link [crawl_page]
    returns has the crawler's domain as its host, exactly; a turn of the
    scheduler only adds such links to the frontier; and over a whole run
    every url that was dispatched or is left in the frontier is the seed or
    has the domain as its host. *)
Theorem links_outside_domain_never_enqueued :
  lookup_known W →
  (∀ url self links self',
     crawl_page W url self = (Ok links, self') →
     ∀ u, u ∈ links → urlparse_netloc W u = Ok (domain self))
  ∧ (∀ max_pages queue self queue' ev self',
       crawl_turn W max_pages queue self = (Next queue' ev, self') →
       ∀ u, u ∈ queue' → u ∈ queue ∨ urlparse_netloc W u = Ok (domain self))
  ∧ (∀ max_pages self r trace self',
       crawl W max_pages self = Some (r, trace, self') →
       Forall (λ u, u = start_url self ∨ urlparse_netloc W u = Ok (domain self))
              (dispatched trace ++ match r with Ok queue => queue | Raise _ => [] end)).
Proof.
  intros Hk.
  assert (∀ max_pages queue self queue' ev self',
       crawl_turn W max_pages queue self = (Next queue' ev, self') →
       ∀ u, u ∈ queue' → u ∈ queue ∨ urlparse_netloc W u = Ok (domain self)) as Hturn.
  { intros max_pages queue self queue' ev self' Heq u Hu.
    apply crawl_turn_spec in Heq as (_ & _ & Hq).
    destruct (Hq u Hu) as [? | (_ & links & url & s & s' & Hcall & Hev & Hin)]; [by left |].
    right. destruct (evolves_fields _ _ Hev) as (_ & _ & <- & _).
    by eapply crawl_page_in_domain. }
  split; [intros; by eapply crawl_page_in_domain |]. split; [exact Hturn |].
  intros max_pages self r trace self'.
  destruct (crawl_cases W max_pages self) as [[Hw ->] | [Hw ->]].
  { intros [= <- <- <-]. constructor. }
  intros Hrun.
  set (P := λ u, u = start_url self ∨ urlparse_netloc W u = Ok (domain self)).
  pose (Post := λ (r : py_result (list string)) (tr : list batch_event) (s : WebCrawler),
         Forall P (dispatched tr ++ match r with Ok queue => queue | Raise _ => [] end)).
  pose (Inv := λ (queue : list string) (tr : list batch_event) (s : WebCrawler),
         evolves self s ∧ Forall P (dispatched tr) ∧ Forall P queue).
  change (Post r trace self').
  refine (crawl_loop_rule W max_pages Inv Post _ _ _ _ _ _ _ _ _ Hrun).
  2: { split; [apply evolves_refl |]. split; [constructor |].
       constructor; [by left | constructor]. }
  clear r trace self' Hrun.
  intros queue tr s t s' (Hev & Htr & Hqueue) Heq.
  pose proof (crawl_turn_spec _ _ _ _ _ _ Heq) as Hspec.
  destruct (evolves_fields _ _ Hev) as (_ & _ & Hdom & _).
  assert (∀ ev, batch_facts max_pages queue s s' ev →
            Forall P (dispatched (tr ++ [ev])) ∧ evolves self s') as Hbatch.
  { intros ev Hfacts. split.
    - rewrite dispatched_snoc. apply Forall_app. split; [done |].
      destruct Hfacts as (_ & _ & _ & _ & _ & Hnew & _).
      apply Forall_forall. intros u Hu. destruct (Hnew u Hu) as [_ Hin].
      rewrite Forall_forall in Hqueue. by apply Hqueue.
    - eapply evolves_trans; [exact Hev |]. by eapply batch_facts_evolves. }
  destruct t as [queue' | queue' ev | e ev].
  - destruct Hspec as (Hsuf & -> & _). unfold Post. apply Forall_app. split; [done |].
    apply Forall_forall. intros u Hu. rewrite Forall_forall in Hqueue.
    apply Hqueue. by eapply elem_of_suffix.
  - destruct Hspec as (Hfacts & _). destruct (Hbatch _ Hfacts) as [? ?].
    split; [done |]. split; [done |].
    apply Forall_forall. intros u Hu.
    destruct (Hturn _ _ _ _ _ _ Heq u Hu) as [Hin | Hnet].
    + rewrite Forall_forall in Hqueue. by apply Hqueue.
    + right. by rewrite Hnet, Hdom.
  - destruct Hspec as (Hfacts & _). destruct (Hbatch _ Hfacts) as [? ?].
    unfold Post. by rewrite app_nil_r.
Qed.

End Scheduler.

(** * The database configuration *)

Section Config.
Context (W : World).
Context (known : lookup_known W).

Lemma extract_links_db_config cfg url anchors : ∀ links self,
  extract_links W url anchors links (set_db_config cfg self)
  = on_self (set_db_config cfg) (extract_links W url anchors links self).
Proof.
  induction anchors as [| href anchors IH]; intros links self; simpl; [done |].
  destruct (truthy href); [| apply IH].
  unfold bind, lift, call_is_valid_url.
  destruct (urljoin W url (default "" href)) as [abs | e]; [| done].
  destruct known as [-> | ->]; [done |].
  unfold is_valid_url_spec; simpl.
  destruct (urlparse_netloc W abs) as [h | e]; [| done].
  case_bool_decide; apply IH.
Qed.

Lemma crawl_page_db_config cfg url self :
  crawl_page W url (set_db_config cfg self)
  = on_self (set_db_config cfg) (crawl_page W url self).
Proof.
  unfold crawl_page, try_except, crawl_page_try, bind, lift.
  destruct (requests_get W url) as [text | e]; simpl; [| done].
  destruct (BeautifulSoup W text) as [s | e]; simpl; [| done].
  destruct (urlparse_netloc W url) as [ip | e]; simpl; [| done].
  rewrite !save_result_eq.
  fold (logged url "success" None
          (saved W url (title_of s) text (Some ip) (set_db_config cfg self))).
  fold (logged url "success" None (saved W url (title_of s) text (Some ip) self)).
  set (self1 := logged url "success" None (saved W url (title_of s) text (Some ip) self)).
  change (logged url "success" None
            (saved W url (title_of s) text (Some ip) (set_db_config cfg self)))
    with (set_db_config cfg self1).
  rewrite extract_links_db_config.
  by destruct (extract_links W url (soup_anchors s) ∅ _) as [[links | e] self2].
Qed.

Lemma run_workers_db_config cfg urls : ∀ self,
  run_workers W urls (set_db_config cfg self)
  = on_self (set_db_config cfg) (run_workers W urls self).
Proof.
  induction urls as [| url urls IH]; intros self; simpl; [done |].
  rewrite crawl_page_db_config.
  destruct (crawl_page W url self) as [r self1]. unfold on_self at 1. simpl.
  rewrite IH. by destruct (run_workers W urls self1) as [rs self2].
Qed.

Lemma crawl_turn_db_config cfg max_pages queue self :
  crawl_turn W max_pages queue (set_db_config cfg self)
  = on_self (set_db_config cfg) (crawl_turn W max_pages queue self).
Proof.
  unfold crawl_turn.
  change (visited (set_db_config cfg self)) with (visited self).
  change (max_workers (set_db_config cfg self)) with (max_workers self).
  destruct (negb (bool_decide (queue = [])) &&
            (Z.of_nat (size (visited self)) <? max_pages)); [| done].
  destruct (take_batch (max_workers self) queue (visited self) [])
    as [[queue1 vis1] batch].
  case_bool_decide; [done |].
  change (set_visited vis1 (set_db_config cfg self))
    with (set_db_config cfg (set_visited vis1 self)).
  rewrite run_workers_db_config.
  destruct (run_workers W (as_completed W batch) (set_visited vis1 self))
    as [futures self2].
  unfold on_self at 1. simpl.
  destruct (collect_results futures (visited self2) queue1); [| done].
  by destruct (time_sleep (delay self2)).
Qed.

Lemma crawl_loop_db_config cfg max_pages : ∀ fuel queue trace self,
  crawl_loop W fuel max_pages queue trace (set_db_config cfg self)
  = run_on_self (set_db_config cfg) (crawl_loop W fuel max_pages queue trace self).
Proof.
  induction fuel as [| fuel IH]; intros queue trace self; simpl; [done |].
  rewrite crawl_turn_db_config.
  destruct (crawl_turn W max_pages queue self) as [[queue' | queue' ev | e ev] self1];
    simpl; [done | apply IH | done].
Qed.

(** C10. The crawler's behaviour does not depend on the [DatabaseConfig] it
    was built with. The constructor stores it and opens the sqlite file
    [crawler.db] whatever it says; and every operation run on a crawler
    whose [db_config] was replaced by any other value gives the same result,
    the same dispatches and the same object (visited set, tables, file) up to
    that field: [db_config] is never read. *)
Theorem db_config_never_read :
  (∀ disk start cfg1 cfg2 delay_ workers,
     match WebCrawler_init W disk start cfg1 delay_ workers,
           WebCrawler_init W disk start cfg2 delay_ workers with
     | Ok c1, Ok c2 =>
         c2 = set_db_config cfg2 c1
         ∧ conn_path (conn c1) = "crawler.db" ∧ conn_path (conn c2) = "crawler.db"
         ∧ conn_db (conn c1) = default (mkDb [] []) (disk !! "crawler.db")
     | Raise e1, Raise e2 => e1 = e2
     | _, _ => False
     end)
  ∧ (∀ cfg self,
       (∀ h, is_duplicate_content h (set_db_config cfg self)
             = on_self (set_db_config cfg) (is_duplicate_content h self))
       ∧ (∀ url title content ip,
            save_result W url title content ip (set_db_config cfg self)
            = on_self (set_db_config cfg) (save_result W url title content ip self))
       ∧ (∀ url status error,
            log_crawl url status error (set_db_config cfg self)
            = on_self (set_db_config cfg) (log_crawl url status error self))
       ∧ (∀ url, crawl_page W url (set_db_config cfg self)
                 = on_self (set_db_config cfg) (crawl_page W url self))
       ∧ (∀ max_pages, crawl W max_pages (set_db_config cfg self)
                       = run_on_self (set_db_config cfg) (crawl W max_pages self))).
Proof.
  split.
  - intros disk start cfg1 cfg2 d w. unfold WebCrawler_init.
    by destruct (urlparse_netloc W start).
  - intros cfg self. split; [done |]. split; [| split; [done | split]].
    + intros. by rewrite !save_result_eq.
    + intros url. apply crawl_page_db_config.
    + intros max_pages. unfold crawl.
      change (max_workers (set_db_config cfg self)) with (max_workers self).
      destruct (max_workers self <=? 0); [done |].
      apply crawl_loop_db_config.
Qed.

End Config.

(** * Runs on the sample site *)

Lemma completed_known : lookup_known Site.completed.
Proof. right. reflexivity. Defined.

(** C2. A page with a link is logged twice. [crawl_page] logs the success
    before it extracts the links, inside the same [try]; an exception raised
    by the extraction is then logged as an error for the same url. In the
    source as written every anchor with a href raises (the method
    [is_valid_url] does not exist); with the method in place a href that
    [urljoin] rejects does the same. One dispatched url, two log entries. *)
Theorem page_with_link_logged_twice :
  logs (crawl_page Site.as_written Site.home (Site.fresh 5)).2
  = [mkLogRow Site.home "success" None;
     mkLogRow Site.home "error"
       (Some "'WebCrawler' object has no attribute 'is_valid_url'")]
  ∧ logs (crawl_page Site.completed Site.page_bad (Site.fresh 5)).2
    = [mkLogRow Site.page_bad "success" None;
       mkLogRow Site.page_bad "error" (Some "Invalid IPv6 URL")]
  ∧ match crawl Site.as_written 10 (Site.fresh 5) with
    | Some (_, trace, self') =>
        dispatched trace = [Site.home] ∧ length (logs self') = 2%nat
    | None => False
    end.
Proof. split; [| split]; vm_compute; done. Qed.

(** C5, as stated, fails: the worker writes to both tables. *)
Lemma worker_writes_store_and_log :
  let self := Site.fresh 5 in
  let self' := (crawl_page Site.as_written Site.home self).2 in
  results self = [] ∧ logs self = []
  ∧ length (results self') = 1%nat ∧ length (logs self') = 2%nat
  ∧ results self' ≠ results self ∧ logs self' ≠ logs self.
Proof. vm_compute. repeat split; discriminate. Qed.

(** Once the class has the method modelled from the spec, links are
    followed, and a link that is already pending is enqueued again: a run
    of the completed class leaves the same url twice in the frontier. (The
    class as written never gets there, see below.) *)
Lemma frontier_holds_duplicates :
  offer ∅ [Site.page_c] {[Site.page_c]} = [Site.page_c; Site.page_c]
  ∧ ¬ NoDup (offer ∅ [Site.page_c] {[Site.page_c]})
  ∧ ∃ trace self',
      crawl Site.completed 3 (Site.fresh 2)
      = Some (Ok [Site.page_c; Site.page_c], trace, self').
Proof.
  split; [by vm_compute |]. split.
  - intros Hnd. vm_compute in Hnd. apply NoDup_cons in Hnd as [Hnotin _].
    apply Hnotin. left.
  - eexists _, _. vm_compute. reflexivity.
Qed.

(** The filter at work: the home page links to two pages of the site and to
    another site; only the former are returned. *)
Lemma links_outside_domain_never_enqueued_witness :
  lookup_known Site.completed
  ∧ (crawl_page Site.completed Site.home (Site.fresh 2)).1
    = Ok {[Site.page_a; Site.page_b]}
  ∧ ∀ u, u ∈ ({[Site.page_a; Site.page_b]} : gset string) →
         urlparse_netloc Site.completed u = Ok (domain (Site.fresh 2)).
Proof.
  split; [exact completed_known |]. split; [vm_compute; reflexivity |].
  destruct (links_outside_domain_never_enqueued Site.completed completed_known)
    as [Hpage _].
  apply (Hpage Site.home (Site.fresh 2) _
           (crawl_page Site.completed Site.home (Site.fresh 2)).2).
  vm_compute. reflexivity.
Defined.

(** [/a] and [/b] have the same body: the second is logged, not stored. *)
Lemma duplicate_content_stored_once_witness :
  let self1 := (crawl_page Site.completed Site.page_a (Site.fresh 2)).2 in
  let self2 := (crawl_page Site.completed Site.page_b self1).2 in
  (∃ row, row ∈ results self1
          ∧ res_content_hash row = get_content_hash Site.completed "<a href=/c>")
  ∧ results self2 = results self1
  ∧ length (filter (λ row, res_content_hash row
                           = get_content_hash Site.completed "<a href=/c>")
                   (results self2)) = 1%nat
  ∧ mkLogRow Site.page_b "success" None ∈ logs self2
  ∧ (∀ url s, unique_rows (results s) →
              unique_rows (results (crawl_page Site.completed url s).2))
  ∧ (∀ url title content_hash ip s,
       unique_rows (results s) →
       unique_rows (results (insert_crawl_results url title content_hash ip s).2)).
Proof.
  apply (duplicate_content_stored_once Site.completed Site.page_a Site.page_b
           "<a href=/c>" "<a href=/c>" (mkSoup None [Some "/c"]) (mkSoup None [Some "/c"])
           "example.com" "example.com" (Site.fresh 2)
           (crawl_page Site.completed Site.page_a (Site.fresh 2)).2).
  - reflexivity.
  - reflexivity.
  - reflexivity.
  - reflexivity.
  - reflexivity.
  - reflexivity.
  - reflexivity.
  - apply not_elem_of_nil.
  - reflexivity.
  - vm_compute. split; apply NoDup_singleton.
Defined.

(** The run of the sample site: three batches, four urls, none twice. *)
Lemma no_url_dispatched_twice_witness :
  ∃ r trace self',
    crawl Site.completed 10 (Site.fresh 2) = Some (r, trace, self')
    ∧ dispatched trace = [Site.home; Site.page_a; Site.page_b; Site.page_c]
    ∧ NoDup (dispatched trace)
    ∧ (∀ u, u ∈ dispatched trace → u ∉ visited (Site.fresh 2))
    ∧ visited self' = visited (Site.fresh 2) ∪ list_to_set (dispatched trace)
    ∧ Forall (λ ev, visited (Site.fresh 2) ⊆ ev_visited_before ev
                    ∧ ev_visited_at_dispatch ev
                      = ev_visited_before ev ∪ list_to_set (ev_batch ev)
                    ∧ ev_visited_at_dispatch ev ⊆ visited self') trace.
Proof.
  eexists _, _, _. split; [vm_compute; reflexivity |]. split; [reflexivity |].
  eapply (no_url_dispatched_twice Site.completed 10 (Site.fresh 2)).
  vm_compute. reflexivity.
Defined.

(** With a budget of two pages and two workers the second batch starts at
    one visited url and ends at three: the bound is reached. *)
Lemma budget_checked_before_each_batch_witness :
  ∃ r trace self',
    crawl Site.completed 2 (Site.fresh 2) = Some (r, trace, self')
    ∧ size (visited self') = 3%nat
    ∧ Forall (λ ev, visited (Site.fresh 2) ⊆ ev_visited_before ev
                    ∧ Z.of_nat (size (ev_visited_before ev)) < 2
                    ∧ Z.of_nat (length (ev_batch ev)) ≤ max_workers (Site.fresh 2)
                    ∧ Z.of_nat (size (ev_visited_at_dispatch ev))
                      ≤ 2 + max_workers (Site.fresh 2) - 1) trace
    ∧ Z.of_nat (size (visited self'))
      ≤ Z.max (Z.of_nat (size (visited (Site.fresh 2))))
              (2 + max_workers (Site.fresh 2) - 1).
Proof.
  eexists _, _, _. split; [vm_compute; reflexivity |]. split; [vm_compute; reflexivity |].
  eapply (budget_checked_before_each_batch Site.completed 2 (Site.fresh 2)).
  vm_compute. reflexivity.
Defined.

(** Two crawlers built alike but for the configuration run alike. *)
Lemma db_config_never_read_witness :
  let other := mkDatabaseConfig "db.example.org" "root" "" "prod" 5432 in
  crawl Site.completed 10 (set_db_config other (Site.fresh 2))
  = run_on_self (set_db_config other) (crawl Site.completed 10 (Site.fresh 2)).
Proof.
  intros other.
  destruct (db_config_never_read Site.completed completed_known) as [_ Hops].
  destruct (Hops other (Site.fresh 2)) as (_ & _ & _ & _ & Hcrawl).
  apply Hcrawl.
Defined.

(** * Further properties of the scheduler's batch selection *)

Section Batches.

Lemma take_batch_popped workers queue : ∀ vis batch queue' vis' batch',
  take_batch workers queue vis batch = (queue', vis', batch') →
  ∃ popped new,
    queue = popped ++ queue'
    ∧ batch' = batch ++ new
    ∧ (new `sublist_of` popped)
    ∧ (∀ u, u ∈ popped → u ∈ vis')
    ∧ vis ⊆ vis'.
Proof.
  induction queue as [| url queue IH]; intros vis batch queue' vis' batch' Heq;
    simpl in Heq.
  - injection Heq as <- <- <-. exists [], [].
    split; [done |]. split; [by rewrite app_nil_r |]. split; [constructor |].
    split; [by intros u Hu%elem_of_nil | done].
  - destruct (Z.ltb_spec (Z.of_nat (length batch)) workers) as [Hlt | Hge].
    2: { injection Heq as <- <- <-. exists [], [].
         split; [done |]. split; [by rewrite app_nil_r |]. split; [constructor |].
         split; [by intros u Hu%elem_of_nil | done]. }
    destruct (decide (url ∈ vis)) as [Hin | Hnin].
    + destruct (IH _ _ _ _ _ Heq) as (popped & new & -> & -> & Hsub & Hvis & Hmono).
      exists (url :: popped), new. split; [done |]. split; [done |].
      split; [by apply sublist_cons |]. split; [| done].
      intros u [-> | Hu]%elem_of_cons; [by apply Hmono | by apply Hvis].
    + destruct (IH _ _ _ _ _ Heq) as (popped & new & -> & -> & Hsub & Hvis & Hmono).
      exists (url :: popped), (url :: new). split; [done |].
      split; [by rewrite <- app_assoc |]. split; [by apply sublist_skip |].
      split; [| set_solver].
      intros u [-> | Hu]%elem_of_cons; [apply Hmono; set_solver | by apply Hvis].
Qed.

Lemma take_batch_length workers queue : ∀ vis batch queue' vis' batch',
  take_batch workers queue vis batch = (queue', vis', batch') →
  length batch'
  = (length batch
     + Z.to_nat (workers - Z.of_nat (length batch))
       `min` size (list_to_set queue ∖ vis : gset string))%nat.
Proof.
  induction queue as [| url queue IH]; intros vis batch queue' vis' batch' Heq;
    simpl in Heq.
  - injection Heq as <- <- <-. simpl. rewrite difference_disjoint_L by set_solver.
    rewrite size_empty. lia.
  - destruct (Z.ltb_spec (Z.of_nat (length batch)) workers) as [Hlt | Hge].
    2: { injection Heq as <- <- <-. lia. }
    destruct (decide (url ∈ vis)) as [Hin | Hnin].
    + rewrite (IH _ _ _ _ _ Heq). do 3 f_equal. rewrite list_to_set_cons. set_solver.
    + rewrite (IH _ _ _ _ _ Heq). rewrite length_app.
      change (length [url]) with 1%nat. rewrite list_to_set_cons.
      assert ((({[url]} ∪ list_to_set queue) ∖ vis : gset string)
              = {[url]} ∪ (list_to_set queue ∖ ({[url]} ∪ vis))) as ->.
      { apply set_eq. intros x.
        rewrite elem_of_difference, !elem_of_union, elem_of_difference,
          elem_of_union, elem_of_singleton.
        destruct (decide (x = url)) as [-> | ?]; naive_solver. }
      rewrite (size_union ({[url]} : gset string)
                 (list_to_set queue ∖ ({[url]} ∪ vis))) by set_solver.
      rewrite size_singleton. lia.
Qed.

Lemma keep_first_filter (P : string → Prop) `{∀ x, Decision (P x)} l :
  keep_first (filter P l) = filter P (keep_first l).
Proof.
  induction l as [| u l IH]; [done |]. rewrite filter_cons.
  destruct (decide (P u)) as [Hu | Hu]; simpl.
  - rewrite filter_cons_True by done. f_equal. rewrite IH.
    rewrite !list_filter_filter. apply list_filter_iff.
    intros x. apply and_comm.
  - rewrite filter_cons_False by done. rewrite IH.
    rewrite list_filter_filter. apply list_filter_iff.
    intros x. split; [| intros Hx; apply Hx].
    intros Hx. split; [done |]. intros ->. done.
Qed.

(** The batch, exactly: the popped urls that are not visited, each once, at
    its first occurrence. *)
Lemma take_batch_exact workers queue : ∀ vis batch queue' vis' batch',
  take_batch workers queue vis batch = (queue', vis', batch') →
  ∃ popped,
    queue = popped ++ queue'
    ∧ batch' = batch ++ keep_first (filter (λ u, u ∉ vis) popped).
Proof.
  induction queue as [| url queue IH]; intros vis batch queue' vis' batch' Heq;
    simpl in Heq.
  - injection Heq as <- <- <-. exists []. split; [done | simpl; by rewrite app_nil_r].
  - destruct (Z.ltb_spec (Z.of_nat (length batch)) workers) as [Hlt | Hge].
    2: { injection Heq as <- <- <-. exists [].
         split; [done | simpl; by rewrite app_nil_r]. }
    destruct (decide (url ∈ vis)) as [Hin | Hnin].
    + destruct (IH _ _ _ _ _ Heq) as (popped & -> & ->).
      exists (url :: popped). split; [done |].
      by rewrite filter_cons_False by (intros Hn; by apply Hn).
    + destruct (IH _ _ _ _ _ Heq) as (popped & -> & ->).
      exists (url :: popped). split; [done |].
      rewrite filter_cons_True by done. simpl. rewrite <- app_assoc. simpl.
      do 2 f_equal. rewrite <- keep_first_filter. f_equal.
      rewrite list_filter_filter. apply list_filter_iff. set_solver.
Qed.

(** X1. Batch selection is first-in first-out and marks what it consumes:
    the inner loop pops a prefix of the queue and leaves the rest in order;
    the batch is exactly the popped urls that were not yet visited, in queue
    order, each once (at its first occurrence): none of its urls was
    visited before; and every popped url is in the visited set afterwards,
    which is the old one plus the batch. *)
Theorem take_batch_fifo (workers : Z) (queue : list string) (vis : gset string) :
  let '(queue', vis', batch) := take_batch workers queue vis [] in
  ∃ popped,
    queue = popped ++ queue'
    ∧ batch = keep_first (filter (λ u, u ∉ vis) popped)
    ∧ (batch `sublist_of` popped)
    ∧ NoDup batch
    ∧ (∀ u, u ∈ batch → u ∉ vis)
    ∧ (∀ u, u ∈ popped → u ∈ vis')
    ∧ (∀ u, u ∈ popped → (u ∈ batch) ∨ (u ∈ vis))
    ∧ vis' = vis ∪ list_to_set batch.
Proof.
  destruct (take_batch workers queue vis []) as [[queue' vis'] batch] eqn:Htake.
  destruct (take_batch_exact _ _ _ _ _ _ _ Htake) as (popped & Hq & Hexact).
  destruct (take_batch_popped _ _ _ _ _ _ _ Htake)
    as (popped' & new & Hq' & Hb & Hsub & Hvis & _).
  assert (popped' = popped) as -> by (rewrite Hq' in Hq at 1; by eapply app_inv_tail).
  apply take_batch_spec in Htake as (new' & Hb' & Hnd & Hnew & Hvis' & _).
  simpl in Hb, Hb', Hexact. subst new new'.
  exists popped. split; [done |]. split; [done |]. split; [done |]. split; [done |].
  split; [intros u Hu; by apply Hnew |]. split; [done |]. split; [| done].
  intros u Hu. specialize (Hvis u Hu). rewrite Hvis' in Hvis. set_solver.
Qed.

(** X2. A batch is as large as it can be: its length is the smaller of
    [max_workers] and the number of distinct unvisited urls pending (none
    when [max_workers] is not positive); and when it is shorter than
    [max_workers] the queue has been used up. *)
Theorem take_batch_is_full (workers : Z) (queue : list string) (vis : gset string) :
  let '(queue', _, batch) := take_batch workers queue vis [] in
  length batch = (Z.to_nat workers `min` size (list_to_set queue ∖ vis : gset string))%nat
  ∧ match decide (Z.of_nat (length batch) < workers) with
    | left _ => queue' = []
    | right _ => True
    end.
Proof.
  destruct (take_batch workers queue vis []) as [[queue' vis'] batch] eqn:Htake.
  split.
  - rewrite (take_batch_length _ _ _ _ _ _ _ Htake). simpl. by rewrite Z.sub_0_r.
  - destruct (decide (Z.of_nat (length batch) < workers)); [| done].
    by eapply take_batch_exhausts.
Qed.

End Batches.

(** * Further properties of the persistence helpers and the worker *)

Section Pages.
Context (W : World).

Lemma saved_rows_idem url title content ip rows :
  saved_rows W url title content ip (saved_rows W url title content ip rows)
  = saved_rows W url title content ip rows.
Proof.
  destruct (saved_rows_cases W url title content ip rows) as [Heq | (Heq & _ & _)];
    [by rewrite !Heq |].
  rewrite Heq. unfold saved_rows at 1. rewrite bool_decide_eq_true_2; [done |].
  apply Exists_app. right. by left.
Qed.

(** X3. [save_result] never raises, leaves the log alone and only ever
    appends to [crawl_results]; afterwards the content is found by
    [is_duplicate_content], unless the url was already stored (then nothing
    was inserted); and saving the same page again changes nothing. *)
Theorem save_result_then_lookup url title content ip self :
  let self' := (save_result W url title content ip self).2 in
  (save_result W url title content ip self).1 = Ok tt
  ∧ logs self' = logs self
  ∧ (results self `prefix_of` results self')
  ∧ ((is_duplicate_content (get_content_hash W content) self').1 = Ok true
     ∨ (url ∈ res_url <$> results self ∧ results self' = results self))
  ∧ save_result W url title content ip self' = (Ok tt, self').
Proof.
  rewrite save_result_eq. cbn zeta. cbn [fst snd].
  assert (results (saved W url title content ip self)
          = saved_rows W url title content ip (results self)) as Hres by done.
  split; [done |]. split; [done |]. rewrite Hres. split; [| split].
  - destruct (saved_rows_cases W url title content ip (results self))
      as [-> | [-> _]]; [done | by apply prefix_app_r].
  - unfold is_duplicate_content, gets. cbn [fst]. rewrite Hres.
    set (h := get_content_hash W content).
    destruct (decide (Exists (λ r, res_content_hash r = h) (results self))) as [Hh | Hh].
    + left. f_equal. apply bool_decide_eq_true_2.
      unfold saved_rows. fold h. by rewrite bool_decide_eq_true_2.
    + destruct (decide (Exists (λ r, res_url r = url) (results self))) as [Hu | Hu].
      * right. split; [by apply Exists_fmap_elem |].
        unfold saved_rows. fold h. rewrite bool_decide_eq_false_2 by done.
        by rewrite bool_decide_eq_true_2.
      * left. f_equal. apply bool_decide_eq_true_2.
        unfold saved_rows. fold h. rewrite !bool_decide_eq_false_2 by done.
        apply Exists_app. right. by left.
  - rewrite save_result_eq. f_equal. unfold saved at 1.
    rewrite Hres, saved_rows_idem. unfold saved. by rewrite logs_set_db.
Qed.

(** X4. A url that is already stored is never stored again nor updated:
    whatever the page now serves, and however the call goes, [crawl_page]
    leaves [crawl_results] exactly as it was. *)
Theorem stored_url_never_updated url self :
  url ∈ res_url <$> results self →
  results (crawl_page W url self).2 = results self.
Proof.
  intros Hin.
  destruct (crawl_page_outcome W url self) as (links & self' & -> & Hout). simpl.
  assert (∀ title text ip, saved_rows W url title text ip (results self) = results self)
    as Hsaved.
  { intros title text ip. unfold saved_rows. case_bool_decide; [done |].
    rewrite bool_decide_eq_true_2; [done |]. by apply Exists_fmap_elem. }
  destruct Hout as [e _ | text s ip l _ _ _ self1 _ | text s ip e _ _ _ self1 _];
    [done | |]; unfold self1, logged, saved; by rewrite !results_set_db.
Qed.

(** X5. What one call of [crawl_page] writes to the log, in full. It is one
    of: a single error entry (the fetch, the parse or [urlparse] failed:
    nothing stored, no links); a single success entry (page handled, links
    returned); or a success entry followed by an error entry (the link loop
    raised after the page had been stored and logged: no links). A success
    entry has a NULL error, an error entry carries the exception's text. *)
Theorem crawl_page_log_entries url self :
  ∃ links self',
    crawl_page W url self = (Ok links, self')
    ∧ ((∃ e, logs self' = logs self ++ [mkLogRow url "error" (Some (str e))]
             ∧ results self' = results self ∧ links = ∅)
       ∨ (∃ text, requests_get W url = Ok text
                  ∧ logs self' = logs self ++ [mkLogRow url "success" None])
       ∨ (∃ e text, requests_get W url = Ok text
                    ∧ logs self' = logs self ++ [mkLogRow url "success" None;
                                                 mkLogRow url "error" (Some (str e))]
                    ∧ links = ∅)).
Proof.
  destruct (crawl_page_outcome W url self) as (links & self' & Heq & Hout).
  exists links, self'. split; [done |].
  destruct Hout as [e _ | text s ip l Hget _ _ self1 _ | text s ip e Hget _ _ self1 _].
  - left. by exists e.
  - right; left. by exists text.
  - right; right. exists e, text. split; [done |]. split; [| done].
    unfold self1, logged, saved. rewrite !logs_set_db. by rewrite <- app_assoc.
Qed.

(** The link loop without the method: it stops at the first anchor that has
    a href it can join. *)
Lemma extract_links_undefined url anchors : ∀ links self r,
  lookup_is_valid_url W = None →
  (extract_links W url anchors links self).1 = Ok r → r = links.
Proof.
  induction anchors as [| href anchors IH]; intros links self r Hnone Hex;
    simpl in Hex.
  - by injection Hex as <-.
  - destruct (truthy href); [| by eapply IH].
    unfold bind, lift, call_is_valid_url in Hex.
    destruct (urljoin W url (default "" href)) as [abs | e]; [| done].
    by rewrite Hnone in Hex.
Qed.

Lemma crawl_page_undefined url self :
  lookup_is_valid_url W = None → (crawl_page W url self).1 = Ok ∅.
Proof.
  intros Hnone.
  destruct (crawl_page_outcome W url self) as (links & self' & -> & Hout). simpl.
  destruct Hout as [e _ | text s ip l _ _ _ self1 Hex | text s ip e _ _ _ self1 _];
    [done | | done].
  f_equal. by eapply extract_links_undefined.
Qed.

(** X7. The link loop, for any implementation [f] of [is_valid_url]: when
    it completes, the set it returns holds exactly the links it started from
    and the absolutized non-empty hrefs that [f] accepts (anchors without a
    href or with an empty one are skipped); and completing means that every
    such href could be joined and checked without an exception. *)
Theorem extract_links_exact f url anchors links self r :
  lookup_is_valid_url W = Some f →
  (extract_links W url anchors links self).1 = Ok r →
  (∀ u, u ∈ r ↔
        u ∈ links
        ∨ ∃ href, Some href ∈ anchors ∧ href ≠ ""
                  ∧ urljoin W url href = Ok u ∧ f self u = Ok true)
  ∧ (∀ href, Some href ∈ anchors → href ≠ "" →
       ∃ absolute valid, urljoin W url href = Ok absolute
                         ∧ f self absolute = Ok valid).
Proof.
  intros Hsome. revert links.
  induction anchors as [| href anchors IH]; intros links Hex; simpl in Hex.
  - injection Hex as <-. split.
    + intros u. split; [by left |]. intros [? | (h & Hh%elem_of_nil & _)]; done.
    + by intros h Hh%elem_of_nil.
  - destruct href as [h |]; simpl in Hex.
    2: { destruct (IH _ Hex) as [Hiff Hall]. split.
         - intros u. rewrite Hiff. split; intros [? | (h & Hh & ?)]; auto.
           + right. exists h. split; [by right | done].
           + apply elem_of_cons in Hh as [? | Hh]; [done |]. right. by exists h.
         - intros h [? | Hh]%elem_of_cons; [done |]. by apply Hall. }
    case_bool_decide as Hempty; simpl in Hex.
    { subst h. destruct (IH _ Hex) as [Hiff Hall]. split.
      - intros u. rewrite Hiff. split; intros [? | (h & Hh & Hne & ?)]; auto.
        + right. exists h. split; [by right | done].
        + apply elem_of_cons in Hh as [[= ->] | Hh]; [done |]. right. by exists h.
      - intros h [[= ->] | Hh]%elem_of_cons; [done |]. by apply Hall. }
    unfold bind, lift, call_is_valid_url in Hex. rewrite Hsome in Hex.
    destruct (urljoin W url h) as [abs | e] eqn:Hjoin; [| done].
    destruct (f self abs) as [valid | e] eqn:Hvalid; [| done].
    assert (∀ h', Some h' ∈ Some h :: anchors → h' ≠ "" →
              (∀ h'', Some h'' ∈ anchors → h'' ≠ "" →
                 ∃ a v, urljoin W url h'' = Ok a ∧ f self a = Ok v) →
              ∃ a v, urljoin W url h' = Ok a ∧ f self a = Ok v) as Hhead.
    { intros h' [[= <-] | Hh]%elem_of_cons Hne Hall; [by eauto | by apply Hall]. }
    destruct valid; destruct (IH _ Hex) as [Hiff Hall].
    + split; [| intros h' Hh Hne; by apply Hhead].
      intros u. rewrite Hiff, elem_of_union, elem_of_singleton.
      split; [intros [[-> | ?] | (h' & Hh & ?)] | intros [? | (h' & Hh & Hne & Hj & Hv)]].
      * right. exists h. split; [left | done].
      * by left.
      * right. exists h'. split; [by right | done].
      * by left; right.
      * apply elem_of_cons in Hh as [[= <-] | Hh].
        -- left; left. congruence.
        -- right. by exists h'.
    + split; [| intros h' Hh Hne; by apply Hhead].
      intros u. rewrite Hiff.
      split; [intros [? | (h' & Hh & ?)] | intros [? | (h' & Hh & Hne & Hj & Hv)]].
      * by left.
      * right. exists h'. split; [by right | done].
      * by left.
      * apply elem_of_cons in Hh as [[= <-] | Hh]; [congruence |].
        right. by exists h'.
Qed.

End Pages.

(** * Further properties of the scheduler's runs *)

Section Runs.
Context (W : World).

Lemma collect_results_exact futures vis : ∀ queue queue',
  collect_results futures vis queue = Ok queue' →
  ∃ added,
    queue' = queue ++ added
    ∧ ∀ u, u ∈ added →
        (u ∉ vis) ∧ ∃ links : gset string, Ok links ∈ futures ∧ u ∈ links.
Proof.
  induction futures as [| r futures IH]; intros queue queue' Heq; simpl in Heq.
  - injection Heq as <-. exists []. rewrite app_nil_r. split; [done |].
    by intros u Hu%elem_of_nil.
  - destruct r as [links | e]; [| done].
    destruct (IH _ _ Heq) as (added & -> & Hadded).
    exists (filter (λ link, link ∉ vis) (elements links) ++ added).
    unfold offer. split; [by rewrite <- app_assoc |].
    intros u [Hu | Hu]%elem_of_app.
    + apply list_elem_of_filter in Hu as [Hv Hu%elem_of_elements].
      split; [done |]. exists links. split; [left | done].
    + destruct (Hadded u Hu) as (Hv & l & Hl & Hul).
      split; [done |]. exists l. split; [by right | done].
Qed.

(** A turn that ran a batch, in full: what was popped, what the pool did,
    what was gathered. *)
Lemma crawl_turn_run max_pages queue self t self' :
  crawl_turn W max_pages queue self = (t, self') →
  match t with
  | Stop _ => True
  | Next queue' ev =>
      ∃ popped remaining futures,
        queue = popped ++ remaining
        ∧ (ev_batch ev `sublist_of` popped)
        ∧ (∀ u, u ∈ popped → u ∈ visited self')
        ∧ run_workers W (as_completed W (ev_batch ev))
            (set_visited (ev_visited_at_dispatch ev) self) = (futures, self')
        ∧ collect_results futures (visited self') remaining = Ok queue'
  | Fail e ev =>
      ∃ futures,
        run_workers W (as_completed W (ev_batch ev))
          (set_visited (ev_visited_at_dispatch ev) self) = (futures, self')
  end.
Proof.
  unfold crawl_turn.
  destruct (negb (bool_decide (queue = [])) &&
            (Z.of_nat (size (visited self)) <? max_pages)); [| by intros [= <- <-]].
  destruct (take_batch (max_workers self) queue (visited self) [])
    as [[queue1 vis1] batch] eqn:Htake.
  destruct (take_batch_popped _ _ _ _ _ _ _ Htake)
    as (popped & new & Hq & Hb & Hsub & Hvis & _).
  simpl in Hb. subst new.
  case_bool_decide; [by intros [= <- <-] |].
  destruct (run_workers W (as_completed W batch) (set_visited vis1 self))
    as [futures self2] eqn:Hrun.
  pose proof (run_workers_spec W _ _ _ _ Hrun) as [(db2 & Hself2) _].
  assert (visited self2 = vis1) as Hv2 by (by rewrite Hself2).
  destruct (collect_results futures (visited self2) queue1) as [queue2 | e] eqn:Hcoll.
  - destruct (time_sleep (delay self2)); intros [= <- <-]; simpl.
    + exists popped, queue1, futures. rewrite Hv2. repeat split; try done.
      by rewrite <- Hv2.
    + by exists futures.
  - intros [= <- <-]. by exists futures.
Qed.

Lemma run_workers_all_ok urls : ∀ s,
  ∃ links_list, (run_workers W urls s).1 = Ok <$> links_list.
Proof.
  induction urls as [| url urls IH]; intros s; simpl; [by exists [] |].
  destruct (crawl_page_outcome W url s) as (links & s1 & -> & _).
  destruct (IH s1) as (ll & Hll).
  destruct (run_workers W urls s1) as [rs s2]. simpl in *. subst rs.
  by exists (links :: ll).
Qed.

Lemma collect_results_ok_list links_list vis : ∀ queue,
  collect_results (Ok <$> links_list) vis queue
  = Ok (queue ++ unvisited_links vis links_list).
Proof.
  induction links_list as [| links ll IH]; intros queue; simpl.
  - unfold unvisited_links. simpl. by rewrite app_nil_r.
  - rewrite IH. unfold offer, unvisited_links. simpl. by rewrite <- app_assoc.
Qed.

Lemma elem_of_unvisited_links vis links_list u :
  u ∈ unvisited_links vis links_list
  ↔ (u ∉ vis) ∧ ∃ links : gset string, links ∈ links_list ∧ u ∈ links.
Proof.
  unfold unvisited_links. induction links_list as [| links ll IH]; simpl.
  - split; [by intros ?%elem_of_nil |]. by intros (_ & l & ?%elem_of_nil & _).
  - rewrite elem_of_app, IH, list_elem_of_filter, elem_of_elements. split.
    + intros [[? ?] | (? & l & ? & ?)].
      * split; [done |]. exists links. split; [left | done].
      * split; [done |]. exists l. split; [by right | done].
    + intros (? & l & [-> | ?]%elem_of_cons & ?); [by left |].
      right. split; [done |]. by exists l.
Qed.

(** A turn that ran a batch and went on, with the queue it leaves. *)
Lemma crawl_turn_next max_pages queue self queue' ev self' :
  crawl_turn W max_pages queue self = (Next queue' ev, self') →
  ∃ popped remaining links_list,
    queue = popped ++ remaining
    ∧ run_workers W (as_completed W (ev_batch ev))
        (set_visited (ev_visited_at_dispatch ev) self) = (Ok <$> links_list, self')
    ∧ queue' = remaining ++ unvisited_links (visited self') links_list
    ∧ (ev_batch ev `sublist_of` popped)
    ∧ (∀ u, u ∈ popped → u ∈ visited self').
Proof.
  intros Hturn. apply crawl_turn_run in Hturn
    as (popped & remaining & futures & Hq & Hsub & Hvis & Hworkers & Hcoll).
  destruct (run_workers_all_ok (as_completed W (ev_batch ev))
              (set_visited (ev_visited_at_dispatch ev) self)) as (ll & Hll).
  rewrite Hworkers in Hll. simpl in Hll. subst futures.
  rewrite collect_results_ok_list in Hcoll. injection Hcoll as <-.
  by exists popped, remaining, ll.
Qed.

(** X15. The frontier is a first-in first-out queue across a turn: the
    turn pops a prefix (all of it visited afterwards, the batch among it),
    keeps the rest in order and appends the newly discovered links at the
    back: exactly the links that the workers of the batch returned and that
    are not visited, worker after worker in completion order. *)
Theorem frontier_is_fifo max_pages queue self queue' ev self' :
  crawl_turn W max_pages queue self = (Next queue' ev, self') →
  ∃ popped remaining links_list added,
    queue = popped ++ remaining
    ∧ queue' = remaining ++ added
    ∧ run_workers W (as_completed W (ev_batch ev))
        (set_visited (ev_visited_at_dispatch ev) self) = (Ok <$> links_list, self')
    ∧ added = unvisited_links (visited self') links_list
    ∧ (∀ u, u ∈ added ↔
            (u ∉ visited self') ∧ ∃ links : gset string, links ∈ links_list ∧ u ∈ links)
    ∧ (ev_batch ev `sublist_of` popped)
    ∧ (∀ u, u ∈ popped → u ∈ visited self')
    ∧ (∀ u, u ∈ added → u ∉ visited self').
Proof.
  intros Hturn. apply crawl_turn_next in Hturn
    as (popped & remaining & ll & Hq & Hworkers & Hq' & Hsub & Hvis).
  exists popped, remaining, ll, (unvisited_links (visited self') ll).
  split; [done |]. split; [done |]. split; [done |]. split; [done |].
  split; [intros u; apply elem_of_unvisited_links |]. split; [done |]. split; [done |].
  intros u Hu. by apply elem_of_unvisited_links in Hu as [? _].
Qed.

(** Every set of links in the futures of a batch is empty when the method
    is missing. *)
Lemma run_workers_undefined urls : ∀ self,
  lookup_is_valid_url W = None →
  Forall (λ r, r = Ok (∅ : gset string)) (run_workers W urls self).1.
Proof.
  induction urls as [| url urls IH]; intros self Hnone; simpl; [constructor |].
  pose proof (crawl_page_undefined W url self Hnone) as Hpage.
  destruct (crawl_page W url self) as [r self1]. simpl in Hpage. subst r.
  specialize (IH self1 Hnone).
  destruct (run_workers W urls self1) as [rs self2]. simpl in *. by constructor.
Qed.

(** X6. The class as written never follows a link. With the lookup of
    [is_valid_url] failing, [crawl_page] returns the empty set for every url
    (any anchor with a href ends the link loop with AttributeError, which
    the handler turns into an error entry), so a run dispatches the seed at
    most and leaves nothing, or the untouched seed, in the frontier. *)
Theorem as_written_only_the_seed :
  lookup_is_valid_url W = None →
  (∀ url self, (crawl_page W url self).1 = Ok ∅)
  ∧ (∀ max_pages self r trace self',
       crawl W max_pages self = Some (r, trace, self') →
       (dispatched trace = [] ∨ dispatched trace = [start_url self])
       ∧ match r with
         | Ok queue => queue = [] ∨ (queue = [start_url self] ∧ trace = [])
         | Raise _ => True
         end).
Proof.
  intros Hnone. split; [intros; by apply crawl_page_undefined |].
  intros max_pages self r trace self'.
  destruct (crawl_cases W max_pages self) as [[Hw ->] | [Hw ->]].
  { intros [= <- <- <-]. by split; [left |]. }
  intros Hrun.
  set (start := start_url self).
  pose (Post := λ (r : py_result (list string)) (tr : list batch_event) (_ : WebCrawler),
         (dispatched tr = [] ∨ dispatched tr = [start])
         ∧ match r with
           | Ok queue => queue = [] ∨ (queue = [start] ∧ tr = [])
           | Raise _ => True
           end).
  pose (Inv := λ (queue : list string) (tr : list batch_event) (_ : WebCrawler),
         (tr = [] ∧ queue = [start]) ∨ (dispatched tr = [start] ∧ queue = [])).
  change (Post r trace self').
  refine (crawl_loop_rule W max_pages Inv Post _ _ _ _ _ _ _ _ _ Hrun);
    [| by left].
  clear r trace self' Hrun.
  intros queue tr s t s' Hinv Hturn.
  pose proof (crawl_turn_spec W _ _ _ _ _ Hturn) as Hspec.
  pose proof (crawl_turn_run _ _ _ _ _ Hturn) as Hrun.
  assert (∀ ev, batch_facts max_pages queue s s' ev →
            tr = [] ∧ queue = [start] ∧ ev_batch ev = [start]) as Hfirst.
  { intros ev (Hne & _ & _ & Hbne & Hnd & Hnew & _).
    destruct Hinv as [[-> ->] | [_ ->]]; [| done]. split; [done |]. split; [done |].
    destruct (ev_batch ev) as [| u [| v l]] eqn:Hb; [done | |].
    - destruct (Hnew u) as [_ Hu]; [left |].
      by apply list_elem_of_singleton in Hu as ->.
    - destruct (Hnew u) as [_ Hu]; [left |].
      destruct (Hnew v) as [_ Hv]; [right; left |].
      apply list_elem_of_singleton in Hu as ->.
      apply list_elem_of_singleton in Hv as ->.
      apply NoDup_cons in Hnd as [Hnotin _]. destruct Hnotin. left. }
  destruct t as [queue' | queue' ev | e ev].
  - destruct Hspec as (Hsuf & _ & _).
    destruct Hinv as [[-> ->] | [Hd ->]].
    + split; [by left |].
      destruct Hsuf as [k Hk]. destruct k as [| x k].
      * right. simpl in Hk. by subst.
      * left. destruct k; destruct queue'; simpl in Hk; done.
    + split; [by right |]. left. by apply suffix_nil_inv.
  - destruct Hspec as (Hfacts & _). destruct (Hfirst _ Hfacts) as (-> & -> & Hb).
    destruct Hrun as (popped & remaining & futures & Hq & Hsub & _ & Hworkers & Hcoll).
    right. split; [unfold dispatched; simpl; by rewrite Hb |].
    assert (popped = [start] ∧ remaining = []) as [-> ->].
    { rewrite Hb in Hsub. destruct popped as [| x popped].
      - by apply sublist_nil_r in Hsub.
      - destruct popped, remaining; simpl in Hq; done. }
    apply collect_results_exact in Hcoll as (added & -> & Hadded).
    destruct added as [| u added]; [done |].
    destruct (Hadded u) as (_ & links & Hl & Hu); [left |].
    pose proof (run_workers_undefined (as_completed W (ev_batch ev))
                  (set_visited (ev_visited_at_dispatch ev) s) Hnone) as Hall.
    rewrite Hworkers in Hall. simpl in Hall. rewrite Forall_forall in Hall.
    specialize (Hall _ Hl). injection Hall as ->. set_solver.
  - destruct Hspec as (Hfacts & _). destruct (Hfirst _ Hfacts) as (-> & -> & Hb).
    split; [| done]. right. unfold dispatched; simpl. by rewrite Hb.
Qed.

(** A relation that every worker call and every marking of visited urls
    respects holds between the crawler before and after a run. *)
Lemma run_workers_preserves (R : relation WebCrawler) :
  Reflexive R → Transitive R →
  (∀ url s, R s (crawl_page W url s).2) →
  ∀ urls s, R s (run_workers W urls s).2.
Proof.
  intros Hrefl Htrans Hpage. induction urls as [| url urls IH]; intros s; simpl; [done |].
  specialize (Hpage url s). destruct (crawl_page W url s) as [r s1].
  specialize (IH s1). destruct (run_workers W urls s1) as [rs s2]. simpl in *.
  by transitivity s1.
Qed.

Lemma crawl_preserves (R : relation WebCrawler) max_pages self r trace self' :
  Reflexive R → Transitive R →
  (∀ url s, R s (crawl_page W url s).2) →
  (∀ vis s, R s (set_visited vis s)) →
  crawl W max_pages self = Some (r, trace, self') →
  R self self'.
Proof.
  intros Hrefl Htrans Hpage Hvis.
  destruct (crawl_cases W max_pages self) as [[Hw ->] | [Hw ->]].
  { by intros [= <- <- <-]. }
  intros Hrun.
  pose (Post := λ (_ : py_result (list string)) (_ : list batch_event) (s : WebCrawler),
         R self s).
  pose (Inv := λ (_ : list string) (_ : list batch_event) (s : WebCrawler), R self s).
  change (Post r trace self').
  refine (crawl_loop_rule W max_pages Inv Post _ _ _ _ _ _ _ _ _ Hrun);
    [| apply Hrefl].
  clear r trace self' Hrun. intros queue tr s t s' Hinv Hturn.
  pose proof (crawl_turn_spec W _ _ _ _ _ Hturn) as Hspec.
  pose proof (crawl_turn_run _ _ _ _ _ Hturn) as Hrun.
  assert (∀ ev futures,
            run_workers W (as_completed W (ev_batch ev))
              (set_visited (ev_visited_at_dispatch ev) s) = (futures, s') →
            R self s') as Hbatch.
  { intros ev futures Hw'.
    pose proof (run_workers_preserves R Hrefl Htrans Hpage
                  (as_completed W (ev_batch ev))
                  (set_visited (ev_visited_at_dispatch ev) s)) as Hr.
    rewrite Hw' in Hr. simpl in Hr.
    transitivity s; [done |]. by transitivity (set_visited (ev_visited_at_dispatch ev) s). }
  destruct t as [queue' | queue' ev | e ev].
  - by destruct Hspec as (_ & -> & _).
  - destruct Hrun as (? & ? & futures & _ & _ & _ & Hw' & _). by eapply Hbatch.
  - destruct Hrun as (futures & Hw'). by eapply Hbatch.
Qed.

(** X11. A run only ever appends to the two tables and keeps their UNIQUE
    constraints; of the crawler object it changes the visited set and the
    tables, nothing else. *)
Theorem crawl_is_append_only max_pages self r trace self' :
  crawl W max_pages self = Some (r, trace, self') →
  (logs self `prefix_of` logs self')
  ∧ (results self `prefix_of` results self')
  ∧ (unique_rows (results self) → unique_rows (results self'))
  ∧ start_url self' = start_url self ∧ domain self' = domain self
  ∧ delay self' = delay self ∧ max_workers self' = max_workers self
  ∧ db_config self' = db_config self
  ∧ conn_path (conn self') = conn_path (conn self).
Proof.
  intros Hrun.
  pose (R := λ s s' : WebCrawler,
         evolves s s'
         ∧ (logs s `prefix_of` logs s') ∧ (results s `prefix_of` results s')
         ∧ (unique_rows (results s) → unique_rows (results s'))).
  assert (R self self') as (Hev & Hl & Hr & Hu).
  { eapply (crawl_preserves R); [| | | | exact Hrun].
    - intros s. split; [apply evolves_refl |]. done.
    - intros a b c (? & ? & ? & ?) (? & ? & ? & ?).
      split; [by eapply evolves_trans |]. split; [by etrans |]. split; [by etrans | auto].
    - intros url s.
      destruct (crawl_page_outcome W url s) as (links & s' & Heq & Hout).
      pose proof (crawl_page_unique W url s) as Huniq. rewrite Heq in *. simpl in *.
      destruct (page_outcome_frame W _ _ _ _ Hout) as (db & Hdb).
      split; [rewrite Hdb; apply evolves_set_db |].
      assert (∀ text sp ip, results s `prefix_of`
                saved_rows W url (title_of sp) text (Some ip) (results s)) as Hpre.
      { intros text sp ip.
        destruct (saved_rows_cases W url (title_of sp) text (Some ip) (results s))
          as [-> | [-> _]]; [done | by apply prefix_app_r]. }
      split; [| split; [| done]];
        destruct Hout as [e _ | text sp ip l _ _ _ self1 _ | text sp ip e _ _ _ self1 _];
        try subst self1; unfold logged, saved;
        rewrite ?logs_set_db, ?results_set_db; try done;
        try (by apply prefix_app_r); try apply Hpre.
      rewrite <- app_assoc. by apply prefix_app_r.
    - intros vis s. split; [apply evolves_set_visited | done]. }
  destruct (evolves_fields _ _ Hev) as (? & ? & ? & ? & ? & ?). done.
Qed.

(** ** Accounting for the log *)

Lemma crawl_page_new_logs url s :
  ∃ new,
    logs (crawl_page W url s).2 = logs s ++ new
    ∧ (1 ≤ length new ≤ 2)%nat
    ∧ Forall (λ row, log_url row = url) new.
Proof.
  destruct (crawl_page_outcome W url s) as (links & s' & -> & Hout). simpl.
  destruct Hout as [e _ | text sp ip l _ _ _ self1 _ | text sp ip e _ _ _ self1 _].
  - exists [mkLogRow url "error" (Some (str e))].
    split; [done |]. split; [simpl; lia | by repeat constructor].
  - exists [mkLogRow url "success" None].
    split; [done |]. split; [simpl; lia | by repeat constructor].
  - exists [mkLogRow url "success" None; mkLogRow url "error" (Some (str e))].
    split; [| split; [simpl; lia | by repeat constructor]].
    unfold self1, logged, saved. rewrite !logs_set_db. by rewrite <- app_assoc.
Qed.

Lemma filter_log_url url u (new : list log_row) :
  Forall (λ row, log_url row = url) new →
  length (filter (λ row, log_url row = u) new)
  = if decide (url = u) then length new else 0%nat.
Proof.
  induction 1 as [| row new Hrow _ IH]; [by destruct (decide (url = u)) |].
  rewrite filter_cons. destruct (decide (url = u)) as [<- | Hne].
  - rewrite decide_True by done. simpl. by rewrite IH.
  - rewrite decide_False by congruence. done.
Qed.

Lemma run_workers_logs urls : ∀ s,
  ∃ new,
    logs (run_workers W urls s).2 = logs s ++ new
    ∧ (length urls ≤ length new ≤ 2 * length urls)%nat
    ∧ ∀ u, (length (filter (λ x, x = u) urls)
            ≤ length (filter (λ row, log_url row = u) new)
            ≤ 2 * length (filter (λ x, x = u) urls))%nat.
Proof.
  induction urls as [| url urls IH]; intros s; simpl.
  - exists []. rewrite app_nil_r. split; [done |]. split; [simpl; lia |].
    intros u. simpl. lia.
  - destruct (crawl_page_new_logs url s) as (block & Hlogs & Hlen & Hall).
    destruct (crawl_page W url s) as [r s1]. simpl in Hlogs.
    destruct (IH s1) as (new & Hnew & Hlen' & Hcount).
    destruct (run_workers W urls s1) as [rs s2]. simpl in *.
    exists (block ++ new). rewrite Hnew, Hlogs, <- app_assoc.
    split; [done |]. rewrite length_app. split; [lia |].
    intros u. specialize (Hcount u).
    rewrite filter_app, length_app, (filter_log_url url u block Hall), filter_cons.
    destruct (decide (url = u)); simpl; lia.
Qed.

(** X12. Log accounting over a run: every dispatched url gets at least one
    log entry and at most two, and nothing else is logged. Counted per url,
    the new entries for it are between once and twice the number of times
    it was dispatched; so in total there are between one and two new entries
    per dispatch, and each new entry is for a dispatched url. *)
Theorem every_dispatch_is_logged max_pages self r trace self' :
  crawl W max_pages self = Some (r, trace, self') →
  ∃ new,
    logs self' = logs self ++ new
    ∧ (∀ u, (length (filter (λ x, x = u) (dispatched trace))
             ≤ length (filter (λ row, log_url row = u) new)
             ≤ 2 * length (filter (λ x, x = u) (dispatched trace)))%nat)
    ∧ (length (dispatched trace) ≤ length new ≤ 2 * length (dispatched trace))%nat
    ∧ (∀ row, row ∈ new → log_url row ∈ dispatched trace)
    ∧ (∀ u, u ∈ dispatched trace → ∃ row, row ∈ new ∧ log_url row = u).
Proof.
  intros Hrun.
  assert (∃ new,
    logs self' = logs self ++ new
    ∧ (length (dispatched trace) ≤ length new ≤ 2 * length (dispatched trace))%nat
    ∧ (∀ u, (length (filter (λ x, x = u) (dispatched trace))
             ≤ length (filter (λ row, log_url row = u) new)
             ≤ 2 * length (filter (λ x, x = u) (dispatched trace)))%nat))
    as (new & Hlogs & Hlen & Hcount).
  { revert Hrun.
    destruct (crawl_cases W max_pages self) as [[Hw ->] | [Hw ->]].
    { intros [= <- <- <-]. exists []. rewrite app_nil_r. split; [done |].
      unfold dispatched; simpl. split; [lia |]. intros u. simpl. lia. }
    intros Hrun.
    pose (Post := λ (_ : py_result (list string)) (tr : list batch_event) (s : WebCrawler),
      ∃ new,
        logs s = logs self ++ new
        ∧ (length (dispatched tr) ≤ length new ≤ 2 * length (dispatched tr))%nat
        ∧ (∀ u, (length (filter (λ x, x = u) (dispatched tr))
                 ≤ length (filter (λ row, log_url row = u) new)
                 ≤ 2 * length (filter (λ x, x = u) (dispatched tr)))%nat)).
    pose (Inv := λ (_ : list string) (tr : list batch_event) (s : WebCrawler),
      Post (Ok []) tr s).
    change (Post r trace self').
    refine (crawl_loop_rule W max_pages Inv Post _ _ _ _ _ _ _ _ _ Hrun).
    2: { exists []. rewrite app_nil_r. split; [done |].
         unfold dispatched; simpl. split; [lia |]. intros u. simpl. lia. }
    clear r trace self' Hrun. intros queue tr s t s' (new & Hl & Hlen & Hcount) Hturn.
    pose proof (crawl_turn_spec W _ _ _ _ _ Hturn) as Hspec.
    pose proof (crawl_turn_run _ _ _ _ _ Hturn) as Hrun.
    assert (∀ ev futures,
              run_workers W (as_completed W (ev_batch ev))
                (set_visited (ev_visited_at_dispatch ev) s) = (futures, s') →
              Post (Ok []) (tr ++ [ev]) s') as Hbatch.
    { intros ev futures Hw'.
      destruct (run_workers_logs (as_completed W (ev_batch ev))
                  (set_visited (ev_visited_at_dispatch ev) s))
        as (block & Hb & Hblen & Hbcount).
      rewrite Hw' in Hb. simpl in Hb.
      change (logs (set_visited (ev_visited_at_dispatch ev) s)) with (logs s) in Hb.
      exists (new ++ block). rewrite Hb, Hl, <- app_assoc. split; [done |].
      rewrite dispatched_snoc, !length_app.
      rewrite (as_completed_perm W (ev_batch ev)) in Hblen.
      split; [lia |]. intros u. specialize (Hcount u). specialize (Hbcount u).
      rewrite (as_completed_perm W (ev_batch ev)) in Hbcount.
      rewrite !filter_app, !length_app. lia. }
    destruct t as [queue' | queue' ev | e ev].
    - destruct Hspec as (_ & -> & _). by exists new.
    - destruct Hrun as (? & ? & futures & _ & _ & _ & Hw' & _). by eapply Hbatch.
    - destruct Hrun as (futures & Hw'). by eapply Hbatch. }
  exists new. split; [done |]. split; [done |]. split; [done |]. split.
  - intros row Hrow. destruct (decide (log_url row ∈ dispatched trace)) as [| Hnotin];
      [done |].
    specialize (Hcount (log_url row)).
    assert (filter (λ x, x = log_url row) (dispatched trace) = []) as Hnil.
    { apply elem_of_nil_inv. intros x [-> Hx]%list_elem_of_filter. done. }
    rewrite Hnil in Hcount. simpl in Hcount.
    assert (row ∈ filter (λ row', log_url row' = log_url row) new) as Hin
      by (by apply list_elem_of_filter).
    destruct (filter (λ row', log_url row' = log_url row) new); [| simpl in Hcount; lia].
    by apply elem_of_nil in Hin.
  - intros u Hu. specialize (Hcount u).
    assert (u ∈ filter (λ x, x = u) (dispatched trace)) as Hin
      by (by apply list_elem_of_filter).
    destruct (filter (λ x, x = u) (dispatched trace)) as [| ? ?] eqn:Hf;
      [by apply elem_of_nil in Hin |].
    destruct (filter (λ row, log_url row = u) new) as [| row rows] eqn:Hrows;
      [simpl in Hcount; lia |].
    exists row.
    assert (row ∈ filter (λ row, log_url row = u) new) as Hrow by (rewrite Hrows; left).
    apply list_elem_of_filter in Hrow as [? ?]. done.
Qed.

(** ** Accounting for the results *)

Lemma crawl_page_new_rows url s :
  ∃ new,
    results (crawl_page W url s).2 = results s ++ new
    ∧ (length new ≤ 1)%nat
    ∧ Forall (λ row, res_url row = url ∧ stored_from_page W row) new.
Proof.
  destruct (crawl_page_outcome W url s) as (links & s' & -> & Hout). simpl.
  assert (∀ text sp ip,
    requests_get W url = Ok text → BeautifulSoup W text = Ok sp →
    urlparse_netloc W url = Ok ip →
    ∃ new, saved_rows W url (title_of sp) text (Some ip) (results s) = results s ++ new
           ∧ (length new ≤ 1)%nat
           ∧ Forall (λ row, res_url row = url ∧ stored_from_page W row) new) as Hsaved.
  { intros text sp ip Hg Hp Hi.
    destruct (saved_rows_cases W url (title_of sp) text (Some ip) (results s))
      as [-> | [-> _]].
    - exists []. rewrite app_nil_r. split; [done |]. split; [simpl; lia | constructor].
    - eexists. split; [done |]. split; [simpl; lia |].
      constructor; [| constructor]. split; [done |]. by exists text, sp, ip. }
  destruct Hout as [e _ | text sp ip l Hg Hp Hi self1 _ | text sp ip e Hg Hp Hi self1 _].
  - exists []. rewrite app_nil_r. split; [done |]. split; [simpl; lia | constructor].
  - apply (Hsaved text sp ip Hg Hp Hi).
  - apply (Hsaved text sp ip Hg Hp Hi).
Qed.

Lemma run_workers_rows urls : ∀ s,
  ∃ new,
    results (run_workers W urls s).2 = results s ++ new
    ∧ (length new ≤ length urls)%nat
    ∧ Forall (λ row, res_url row ∈ urls ∧ stored_from_page W row) new.
Proof.
  induction urls as [| url urls IH]; intros s; simpl.
  - exists []. rewrite app_nil_r. split; [done |]. split; [simpl; lia | constructor].
  - destruct (crawl_page_new_rows url s) as (block & Hrows & Hlen & Hall).
    destruct (crawl_page W url s) as [r s1]. simpl in Hrows.
    destruct (IH s1) as (new & Hnew & Hlen' & Hall').
    destruct (run_workers W urls s1) as [rs s2]. simpl in *.
    exists (block ++ new). rewrite Hnew, Hrows, <- app_assoc.
    split; [done |]. rewrite length_app. split; [lia |].
    apply Forall_app. split.
    + eapply Forall_impl; [exact Hall |]. simpl. intros row [-> ?]. split; [left | done].
    + eapply Forall_impl; [exact Hall' |]. simpl. intros row [? ?]. split; [by right | done].
Qed.

(** X16. Where stored rows come from: every row a run adds to
    [crawl_results] is for a url it dispatched and is determined by that
    url's page: the title of the parsed body, the hash of the body as
    fetched, and as [ip_address] the host part of the url itself; and a run
    stores at most one row per dispatch. *)
Theorem stored_rows_provenance max_pages self r trace self' :
  crawl W max_pages self = Some (r, trace, self') →
  ∃ new,
    results self' = results self ++ new
    ∧ (length new ≤ length (dispatched trace))%nat
    ∧ Forall (λ row, res_url row ∈ dispatched trace ∧ stored_from_page W row) new.
Proof.
  destruct (crawl_cases W max_pages self) as [[Hw ->] | [Hw ->]].
  { intros [= <- <- <-]. exists []. rewrite app_nil_r.
    split; [done |]. split; [simpl; lia | constructor]. }
  intros Hrun.
  pose (Post := λ (_ : py_result (list string)) (tr : list batch_event) (s : WebCrawler),
    ∃ new,
      results s = results self ++ new
      ∧ (length new ≤ length (dispatched tr))%nat
      ∧ Forall (λ row, res_url row ∈ dispatched tr ∧ stored_from_page W row) new).
  pose (Inv := λ (_ : list string) (tr : list batch_event) (s : WebCrawler),
    Post (Ok []) tr s).
  change (Post r trace self').
  refine (crawl_loop_rule W max_pages Inv Post _ _ _ _ _ _ _ _ _ Hrun).
  2: { exists []. rewrite app_nil_r. split; [done |]. split; [simpl; lia | constructor]. }
  clear r trace self' Hrun. intros queue tr s t s' (new & Hr & Hlen & Hall) Hturn.
  pose proof (crawl_turn_spec W _ _ _ _ _ Hturn) as Hspec.
  pose proof (crawl_turn_run _ _ _ _ _ Hturn) as Hrun.
  assert (∀ ev futures,
            run_workers W (as_completed W (ev_batch ev))
              (set_visited (ev_visited_at_dispatch ev) s) = (futures, s') →
            Post (Ok []) (tr ++ [ev]) s') as Hbatch.
  { intros ev futures Hw'.
    destruct (run_workers_rows (as_completed W (ev_batch ev))
                (set_visited (ev_visited_at_dispatch ev) s))
      as (block & Hb & Hblen & Hball).
    rewrite Hw' in Hb. simpl in Hb.
    change (results (set_visited (ev_visited_at_dispatch ev) s)) with (results s) in Hb.
    exists (new ++ block). rewrite Hb, Hr, <- app_assoc. split; [done |].
    rewrite dispatched_snoc, !length_app.
    rewrite (as_completed_perm W (ev_batch ev)) in Hblen. split; [lia |].
    apply Forall_app. split.
    - eapply Forall_impl; [exact Hall |]. simpl. intros row [? ?].
      split; [apply elem_of_app; by left | done].
    - eapply Forall_impl; [exact Hball |]. simpl. intros row [Hin ?].
      rewrite (as_completed_perm W (ev_batch ev)) in Hin.
      split; [apply elem_of_app; by right | done]. }
  destruct t as [queue' | queue' ev | e ev].
  - destruct Hspec as (_ & -> & _). by exists new.
  - destruct Hrun as (? & ? & futures & _ & _ & _ & Hw' & _). by eapply Hbatch.
  - destruct Hrun as (futures & Hw'). by eapply Hbatch.
Qed.

(** ** The first turn, and runs that have nothing to do *)

Lemma crawl_turn_nothing_to_do max_pages self :
  0 < max_workers self →
  max_pages ≤ Z.of_nat (size (visited self)) ∨ start_url self ∈ visited self →
  crawl_turn W max_pages [start_url self] self
  = (Stop (if decide (max_pages ≤ Z.of_nat (size (visited self)))
           then [start_url self] else []), self).
Proof.
  intros Hw Hcase. unfold crawl_turn.
  rewrite bool_decide_eq_false_2 by done. cbn [negb andb].
  destruct (decide (max_pages ≤ Z.of_nat (size (visited self)))) as [Hfull | Hroom].
  { destruct (Z.ltb_spec (Z.of_nat (size (visited self))) max_pages); [lia | done]. }
  destruct Hcase as [? | Hseen]; [done |].
  destruct (Z.ltb_spec (Z.of_nat (size (visited self))) max_pages); [| lia].
  cbn [take_batch length]. destruct (Z.ltb_spec (Z.of_nat 0) (max_workers self)); [| lia].
  rewrite decide_True by done. rewrite bool_decide_eq_true_2 by done.
  by rewrite set_visited_id.
Qed.

(** X8. A run that has nothing to do does nothing. When the budget is
    already used up, or the seed has already been visited (the crawler was
    run before), [crawl] fetches nothing, writes nothing and leaves the
    object as it is; the frontier it ends with is the untouched seed in the
    first case and empty in the second. *)
Theorem crawl_nothing_to_do max_pages self :
  0 < max_workers self →
  max_pages ≤ Z.of_nat (size (visited self)) ∨ start_url self ∈ visited self →
  crawl W max_pages self
  = Some (Ok (if decide (max_pages ≤ Z.of_nat (size (visited self)))
              then [start_url self] else []), [], self).
Proof.
  intros Hw Hcase.
  destruct (crawl_cases W max_pages self) as [[? _] | [_ ->]]; [lia |].
  unfold crawl_fuel. cbn [crawl_loop].
  by rewrite (crawl_turn_nothing_to_do max_pages self Hw Hcase).
Qed.

Lemma as_completed_singleton u : as_completed W [u] = [u].
Proof. apply Permutation_singleton_r, as_completed_perm. Qed.

(** The first turn of a run that has something to do: the seed alone is
    dispatched; the turn goes on unless the delay is negative. *)
Lemma first_turn max_pages self :
  0 < max_workers self →
  Z.of_nat (size (visited self)) < max_pages →
  start_url self ∉ visited self →
  let start := start_url self in
  let self1 := set_visited ({[start]} ∪ visited self) self in
  let self2 := (crawl_page W start self1).2 in
  let ev := mkEvent (visited self) [start] ({[start]} ∪ visited self) in
  (0 ≤ delay self ∧ ∃ queue, crawl_turn W max_pages [start] self = (Next queue ev, self2))
  ∨ (delay self < 0
     ∧ crawl_turn W max_pages [start] self
       = (Fail (ValueError "sleep length must be non-negative") ev, self2)).
Proof.
  intros Hw Hroom Hnew start self1 self2 ev.
  unfold crawl_turn. fold start.
  rewrite bool_decide_eq_false_2 by done. cbn [negb andb].
  destruct (Z.ltb_spec (Z.of_nat (size (visited self))) max_pages); [| lia].
  cbn [take_batch length]. destruct (Z.ltb_spec (Z.of_nat 0) (max_workers self)); [| lia].
  rewrite decide_False by done. cbn [app].
  rewrite bool_decide_eq_false_2 by done.
  rewrite as_completed_singleton. cbn [run_workers]. fold self1.
  destruct (crawl_page_outcome W start self1) as (links & s2 & Hpage & Hout).
  subst self2. rewrite Hpage. cbn [snd collect_results].
  destruct (page_outcome_frame W _ _ _ _ Hout) as (db & ->).
  change (delay (set_db db self1)) with (delay self).
  change (visited (set_visited ({[start]} ∪ visited self) self))
    with ({[start]} ∪ visited self).
  destruct (time_sleep_spec (delay self)) as [[Hd ->] | [Hd ->]].
  - left. split; [done |]. by eexists.
  - right. by split.
Qed.

Lemma crawl_loop_preserves (R : relation WebCrawler) max_pages :
  Reflexive R → Transitive R →
  (∀ url s, R s (crawl_page W url s).2) →
  (∀ vis s, visited s ⊆ vis → R s (set_visited vis s)) →
  ∀ fuel queue trace self r trace' self',
    crawl_loop W fuel max_pages queue trace self = Some (r, trace', self') →
    R self self' ∧ (trace `prefix_of` trace').
Proof.
  intros Hrefl Htrans Hpage Hvis fuel queue trace self r trace' self' Hrun.
  pose (Post := λ (_ : py_result (list string)) (tr : list batch_event) (s : WebCrawler),
         R self s ∧ (trace `prefix_of` tr)).
  pose (Inv := λ (_ : list string) (tr : list batch_event) (s : WebCrawler),
         R self s ∧ (trace `prefix_of` tr)).
  change (Post r trace' self').
  refine (crawl_loop_rule W max_pages Inv Post _ _ _ _ _ _ _ _ _ Hrun);
    [| by split].
  clear r trace' self' Hrun. intros q tr s t s' [Hinv Hpre] Hturn.
  pose proof (crawl_turn_spec W _ _ _ _ _ Hturn) as Hspec.
  pose proof (crawl_turn_run _ _ _ _ _ Hturn) as Hrun.
  assert (∀ ev futures,
            batch_facts max_pages q s s' ev →
            run_workers W (as_completed W (ev_batch ev))
              (set_visited (ev_visited_at_dispatch ev) s) = (futures, s') →
            R self s' ∧ (trace `prefix_of` tr ++ [ev])) as Hbatch.
  { intros ev futures Hfacts Hw'.
    pose proof (run_workers_preserves R Hrefl Htrans Hpage
                  (as_completed W (ev_batch ev))
                  (set_visited (ev_visited_at_dispatch ev) s)) as Hr.
    rewrite Hw' in Hr. simpl in Hr. split; [| by apply prefix_app_r].
    transitivity s; [done |].
    transitivity (set_visited (ev_visited_at_dispatch ev) s); [| done].
    apply Hvis. destruct Hfacts as (_ & _ & _ & _ & _ & _ & _ & -> & _). set_solver. }
  destruct t as [queue' | queue' ev | e ev].
  - destruct Hspec as (_ & -> & _). by split.
  - destruct Hspec as (Hfacts & _).
    destruct Hrun as (? & ? & futures & _ & _ & _ & Hw' & _). by eapply Hbatch.
  - destruct Hspec as (Hfacts & _). destruct Hrun as (futures & Hw'). by eapply Hbatch.
Qed.

(** What the rest of a run keeps of the object an earlier turn left. *)
Lemma crawl_loop_grows max_pages fuel queue trace self r trace' self' :
  crawl_loop W fuel max_pages queue trace self = Some (r, trace', self') →
  (trace `prefix_of` trace')
  ∧ visited self ⊆ visited self'
  ∧ (logs self `prefix_of` logs self')
  ∧ (results self `prefix_of` results self')
  ∧ start_url self' = start_url self.
Proof.
  intros Hrun.
  pose (R := λ s s' : WebCrawler,
         visited s ⊆ visited s' ∧ (logs s `prefix_of` logs s')
         ∧ (results s `prefix_of` results s') ∧ start_url s' = start_url s).
  assert (R self self' ∧ (trace `prefix_of` trace')) as [(? & ? & ? & ?) ?]; [| done].
  refine (crawl_loop_preserves R max_pages _ _ _ _ _ _ _ _ _ _ _ Hrun).
  - by intros s.
  - intros a b c (? & ? & ? & ?) (? & ? & ? & ?).
    split; [set_solver |]. split; [by etrans |]. split; [by etrans | congruence].
  - intros url s.
    destruct (crawl_page_new_logs url s) as (nl & Hl & _).
    destruct (crawl_page_new_rows url s) as (nr & Hr & _).
    destruct (crawl_page_outcome W url s) as (links & s' & Heq & Hout).
    rewrite Heq in *. simpl in *.
    destruct (page_outcome_frame W _ _ _ _ Hout) as (db & Hdb).
    split; [by rewrite Hdb |]. split; [rewrite Hl; by apply prefix_app_r |].
    split; [rewrite Hr; by apply prefix_app_r | by rewrite Hdb].
  - intros vis s Hsub. by split.
Qed.

(** The first entry a worker appends to the log is for its url. *)
Lemma crawl_page_first_log url s :
  ∃ row, logs (crawl_page W url s).2 !! length (logs s) = Some row
         ∧ log_url row = url.
Proof.
  destruct (crawl_page_new_logs url s) as (block & -> & Hlen & Hall).
  destruct block as [| row block]; [simpl in Hlen; lia |].
  exists row. split; [| by apply Forall_cons in Hall as [? _]].
  rewrite lookup_app_r by lia. by rewrite Nat.sub_diag.
Qed.

(** A run that has something to do is the seed's batch followed by the rest
    of the loop, which only adds to what the seed's worker left. *)
Lemma crawl_after_first_turn max_pages self r trace self' :
  0 < max_workers self →
  Z.of_nat (size (visited self)) < max_pages →
  start_url self ∉ visited self →
  crawl W max_pages self = Some (r, trace, self') →
  let start := start_url self in
  let self2 := (crawl_page W start (set_visited ({[start]} ∪ visited self) self)).2 in
  ∃ rest,
    trace = mkEvent (visited self) [start] ({[start]} ∪ visited self) :: rest
    ∧ visited self2 ⊆ visited self'
    ∧ (logs self2 `prefix_of` logs self')
    ∧ (results self2 `prefix_of` results self').
Proof.
  intros Hw Hroom Hnew.
  destruct (crawl_cases W max_pages self) as [[? _] | [_ ->]]; [lia |].
  unfold crawl_fuel. cbn [crawl_loop].
  destruct (first_turn max_pages self Hw Hroom Hnew) as [[_ (queue & ->)] | [_ ->]].
  - intros Hrun. cbv zeta.
    apply crawl_loop_grows in Hrun as ([rest ->] & Hvis & Hlogs & Hres & _).
    by exists rest.
  - intros [= <- <- <-]. cbv zeta. by exists [].
Qed.

(** X9. A run that has something to do starts with the seed alone: with a
    usable pool, room in the budget and an unvisited seed, the first batch
    is exactly the seed, dispatched from the visited set the run started
    with; the seed is visited at the end, and the first entry the run
    appends to the log is for the seed. *)
Theorem seed_is_dispatched_first max_pages self r trace self' :
  0 < max_workers self →
  Z.of_nat (size (visited self)) < max_pages →
  start_url self ∉ visited self →
  crawl W max_pages self = Some (r, trace, self') →
  ∃ ev rest row,
    trace = ev :: rest
    ∧ ev_batch ev = [start_url self]
    ∧ ev_visited_before ev = visited self
    ∧ start_url self ∈ visited self'
    ∧ logs self' !! length (logs self) = Some row
    ∧ log_url row = start_url self.
Proof.
  intros Hw Hroom Hnew Hrun.
  destruct (crawl_after_first_turn _ _ _ _ _ Hw Hroom Hnew Hrun)
    as (rest & -> & Hvis & Hlogs & _).
  set (start := start_url self) in *.
  set (self1 := set_visited ({[start]} ∪ visited self) self) in *.
  destruct (crawl_page_first_log start self1) as (row & Hrow & Hurl).
  eexists _, rest, row. split; [done |]. split; [done |]. split; [done |].
  split; [| split; [| done]].
  - apply Hvis.
    destruct (crawl_page_outcome W start self1) as (? & s2 & -> & Hout). simpl.
    destruct (page_outcome_frame W _ _ _ _ Hout) as (db & ->).
    change (start ∈ {[start]} ∪ visited self). set_solver.
  - destruct Hlogs as [k ->]. by apply lookup_app_l_Some.
Qed.


(** X10. Running the crawler again on the same object does nothing: after a
    run that dispatched anything the seed is visited, so a second [crawl],
    whatever its budget, fetches nothing and leaves the object as it is. *)
Theorem second_crawl_does_nothing max_pages max_pages' self r trace self' :
  crawl W max_pages self = Some (r, trace, self') →
  trace ≠ [] →
  ∃ queue, crawl W max_pages' self' = Some (Ok queue, [], self').
Proof.
  intros Hrun Hne.
  assert (0 < max_workers self ∧ start_url self' = start_url self
          ∧ max_workers self' = max_workers self
          ∧ start_url self ∈ visited self') as (Hw & Hstart & Hworkers & Hseen).
  { revert Hrun.
    destruct (crawl_cases W max_pages self) as [[? ->] | [Hw ->]].
    { by intros [= <- <- <-]. }
    intros Hrun. split; [done |].
    pose (Post := λ (_ : py_result (list string)) (tr : list batch_event) (s : WebCrawler),
           evolves self s ∧ (tr = [] ∨ start_url self ∈ visited s)).
    pose (Inv := λ (queue : list string) (tr : list batch_event) (s : WebCrawler),
           evolves self s
           ∧ ((tr = [] ∧ queue = [start_url self]) ∨ start_url self ∈ visited s)).
    assert (Post r trace self') as [Hev [? | ?]]; [| done |].
    2: { destruct (evolves_fields _ _ Hev) as (? & _ & _ & ? & _). done. }
    refine (crawl_loop_rule W max_pages Inv Post _ _ _ _ _ _ _ _ _ Hrun).
    2: { split; [apply evolves_refl | by left]. }
    clear r trace self' Hrun Hne. intros queue tr s t s' [Hev Hinv] Hturn.
    apply crawl_turn_spec in Hturn.
    assert (∀ ev, batch_facts max_pages queue s s' ev →
              evolves self s' ∧ start_url self ∈ visited s') as Hbatch.
    { intros ev Hfacts. split.
      - eapply evolves_trans; [exact Hev |]. by eapply batch_facts_evolves.
      - destruct Hfacts as (_ & _ & _ & Hbne & _ & Hnew & _ & _ & -> & _).
        destruct Hinv as [[_ ->] | ?]; [| set_solver].
        destruct (ev_batch ev) as [| u l] eqn:Hb; [done |].
        destruct (Hnew u) as [_ Hu]; [left |].
        apply list_elem_of_singleton in Hu as ->. set_solver. }
    destruct t as [queue' | queue' ev | e ev].
    - destruct Hturn as (_ & -> & _). split; [done |].
      destruct Hinv as [[? _] | ?]; [by left | by right].
    - destruct Hturn as (Hfacts & _). destruct (Hbatch _ Hfacts). split; [done | by right].
    - destruct Hturn as (Hfacts & _). destruct (Hbatch _ Hfacts). split; [done | by right]. }
  destruct (crawl_cases W max_pages' self') as [[? _] | [_ ->]]; [lia |].
  unfold crawl_fuel. cbn [crawl_loop].
  rewrite crawl_turn_nothing_to_do; [by eexists | lia | right; by rewrite Hstart].
Qed.

(** ** Rows that are already stored *)

(** X17. Deduplication reaches across runs: no row a run adds has a url or
    a content hash that was in [crawl_results] when the run started, so
    pages stored by an earlier run on the same file are never stored
    again. *)
Theorem stored_pages_are_not_stored_again max_pages self r trace self' :
  crawl W max_pages self = Some (r, trace, self') →
  ∃ new,
    results self' = results self ++ new
    ∧ Forall (λ row, (res_url row ∉ res_url <$> results self)
                     ∧ (res_content_hash row ∉ res_content_hash <$> results self)) new.
Proof.
  intros Hrun.
  pose (R := λ s s' : WebCrawler,
    ∃ new,
      results s' = results s ++ new
      ∧ Forall (λ row, (res_url row ∉ res_url <$> results s)
                       ∧ (res_content_hash row ∉ res_content_hash <$> results s)) new).
  change (R self self'). eapply (crawl_preserves R); [| | | | exact Hrun].
  - intros s. exists []. by rewrite app_nil_r.
  - intros a b c (n1 & Hb & H1) (n2 & Hc & H2). exists (n1 ++ n2).
    rewrite Hc, Hb, <- app_assoc. split; [done |]. apply Forall_app. split; [done |].
    eapply Forall_impl; [exact H2 |]. simpl. intros row [Hu Hh].
    rewrite Hb, !fmap_app in Hu, Hh. set_solver.
  - intros url s.
    destruct (crawl_page_outcome W url s) as (links & s' & -> & Hout). simpl.
    assert (∀ title text ip,
      ∃ new, saved_rows W url title text ip (results s) = results s ++ new
             ∧ Forall (λ row, (res_url row ∉ res_url <$> results s)
                              ∧ (res_content_hash row ∉ res_content_hash <$> results s))
                      new) as Hsaved.
    { intros title text ip.
      destruct (saved_rows_cases W url title text ip (results s))
        as [-> | (-> & Hnh & Hnu)].
      - exists []. by rewrite app_nil_r.
      - eexists. split; [done |]. constructor; [| constructor].
        rewrite Exists_fmap_elem in Hnh, Hnu. done. }
    destruct Hout as [e _ | text sp ip l _ _ _ self1 _ | text sp ip e _ _ _ self1 _].
    + exists []. by rewrite app_nil_r.
    + apply Hsaved.
    + apply Hsaved.
  - intros vis s. exists []. by rewrite app_nil_r.
Qed.

(** X14. The visited set is not kept in the database. A crawler just built,
    on whatever [crawler.db] there is, starts from the rows of that file and
    an empty visited set; so its first run (budget and pool positive)
    dispatches the seed first even when the seed is already stored, logs it
    again, and keeps the old rows. *)
Theorem new_crawler_refetches_seed disk start cfg delay_ workers max_pages
    c r trace c' :
  WebCrawler_init W disk start cfg delay_ workers = Ok c →
  0 < workers → 0 < max_pages →
  crawl W max_pages c = Some (r, trace, c') →
  visited c = ∅
  ∧ conn_db (conn c) = default (mkDb [] []) (disk !! "crawler.db")
  ∧ urlparse_netloc W start = Ok (domain c)
  ∧ (∃ ev rest row,
       trace = ev :: rest ∧ ev_batch ev = [start]
       ∧ logs c' !! length (logs c) = Some row ∧ log_url row = start)
  ∧ (results c `prefix_of` results c').
Proof.
  intros Hinit Hw Hmp Hrun. unfold WebCrawler_init in Hinit.
  destruct (urlparse_netloc W start) as [netloc | e] eqn:Hnet; [| done].
  injection Hinit as <-. cbn [visited conn conn_db setup_database domain].
  split; [done |]. split; [done |]. split; [done |].
  edestruct (crawl_after_first_turn max_pages)
    as (rest & -> & _ & Hlogs & Hres); [| | | exact Hrun |].
  { done. }
  { cbn [visited]. rewrite size_empty. lia. }
  { apply not_elem_of_empty. }
  cbn [start_url visited] in Hlogs, Hres.
  set (c := mkWebCrawler start ∅ delay_ netloc workers cfg (setup_database disk)) in *.
  set (c1 := set_visited ({[start]} ∪ ∅) c) in *.
  split.
  - destruct (crawl_page_first_log start c1) as (row & Hrow & Hurl).
    eexists _, rest, row. split; [done |]. split; [done |]. split; [| done].
    destruct Hlogs as [k ->]. by apply lookup_app_l_Some.
  - destruct (crawl_page_new_rows start c1) as (new & Hnew & _).
    etrans; [| exact Hres]. rewrite Hnew. by apply prefix_app_r.
Qed.

End Runs.

(** * The further properties on the sample site *)

(** The home page, crawled a second time, is not stored again. *)
Lemma stored_url_never_updated_witness :
  let self := (crawl_page Site.completed Site.home (Site.fresh 2)).2 in
  results (crawl_page Site.completed Site.home self).2 = results self.
Proof.
  apply (stored_url_never_updated Site.completed Site.home).
  vm_compute. left.
Defined.

Lemma as_written_only_the_seed_witness :
  (∀ url self, (crawl_page Site.as_written url self).1 = Ok ∅)
  ∧ (∀ max_pages self r trace self',
       crawl Site.as_written max_pages self = Some (r, trace, self') →
       (dispatched trace = [] ∨ dispatched trace = [start_url self])
       ∧ match r with
         | Ok queue => queue = [] ∨ (queue = [start_url self] ∧ trace = [])
         | Raise _ => True
         end).
Proof. apply (as_written_only_the_seed Site.as_written). reflexivity. Defined.

(** The anchors of the home page: two links of the site are kept, the link
    to another site, the anchor without href and the empty href are not. *)
Lemma extract_links_exact_witness :
  let f := is_valid_url_spec Site.netloc in
  let anchors := [Some "/a"; Some "/b"; Some Site.elsewhere; None; Some ""] in
  (∀ u, u ∈ ({[Site.page_a; Site.page_b]} : gset string) ↔
        u ∈ (∅ : gset string)
        ∨ ∃ href, Some href ∈ anchors ∧ href ≠ ""
                  ∧ urljoin Site.completed Site.home href = Ok u
                  ∧ f (Site.fresh 2) u = Ok true)
  ∧ (∀ href, Some href ∈ anchors → href ≠ "" →
       ∃ absolute valid, urljoin Site.completed Site.home href = Ok absolute
                         ∧ f (Site.fresh 2) absolute = Ok valid).
Proof.
  intros f anchors.
  apply (extract_links_exact Site.completed f Site.home anchors ∅ (Site.fresh 2)).
  - reflexivity.
  - vm_compute. reflexivity.
Defined.

(** A crawler whose seed is already visited. *)
Lemma crawl_nothing_to_do_witness :
  let self := set_visited {[Site.home]} (Site.fresh 2) in
  crawl Site.completed 10 self = Some (Ok [], [], self).
Proof.
  intros self.
  apply (crawl_nothing_to_do Site.completed 10 self).
  - reflexivity.
  - right. change (Site.home ∈ ({[Site.home]} : gset string)).
    apply elem_of_singleton_2. reflexivity.
Defined.

Lemma seed_is_dispatched_first_witness :
  ∃ r trace self',
    crawl Site.completed 10 (Site.fresh 2) = Some (r, trace, self')
    ∧ ∃ ev rest row,
        trace = ev :: rest
        ∧ ev_batch ev = [Site.home]
        ∧ ev_visited_before ev = ∅
        ∧ Site.home ∈ visited self'
        ∧ logs self' !! 0%nat = Some row
        ∧ log_url row = Site.home.
Proof.
  eexists _, _, _. split; [vm_compute; reflexivity |].
  eapply (seed_is_dispatched_first Site.completed 10 (Site.fresh 2)).
  - reflexivity.
  - reflexivity.
  - apply not_elem_of_empty.
  - vm_compute. reflexivity.
Defined.


Lemma second_crawl_does_nothing_witness :
  ∃ r trace self',
    crawl Site.completed 2 (Site.fresh 2) = Some (r, trace, self')
    ∧ trace ≠ []
    ∧ ∃ queue, crawl Site.completed 50 self' = Some (Ok queue, [], self').
Proof.
  eexists _, _, _. split; [vm_compute; reflexivity |]. split; [discriminate |].
  eapply (second_crawl_does_nothing Site.completed 2 50 (Site.fresh 2)).
  - vm_compute. reflexivity.
  - discriminate.
Defined.

Lemma crawl_is_append_only_witness :
  ∃ r trace self',
    crawl Site.completed 10 (Site.fresh 2) = Some (r, trace, self')
    ∧ length (logs self') = 4%nat ∧ length (results self') = 2%nat
    ∧ (logs (Site.fresh 2) `prefix_of` logs self')
    ∧ (results (Site.fresh 2) `prefix_of` results self')
    ∧ (unique_rows (results (Site.fresh 2)) → unique_rows (results self'))
    ∧ start_url self' = Site.home ∧ domain self' = "example.com"
    ∧ delay self' = 1 ∧ max_workers self' = 2
    ∧ db_config self' = Site.config
    ∧ conn_path (conn self') = "crawler.db".
Proof.
  eexists _, _, _. split; [vm_compute; reflexivity |].
  split; [reflexivity |]. split; [reflexivity |].
  eapply (crawl_is_append_only Site.completed 10 (Site.fresh 2)).
  vm_compute. reflexivity.
Defined.

Lemma every_dispatch_is_logged_witness :
  ∃ r trace self',
    crawl Site.completed 10 (Site.fresh 2) = Some (r, trace, self')
    ∧ ∃ new,
        logs self' = logs (Site.fresh 2) ++ new
        ∧ (∀ u, (length (filter (λ x, x = u) (dispatched trace))
                 ≤ length (filter (λ row, log_url row = u) new)
                 ≤ 2 * length (filter (λ x, x = u) (dispatched trace)))%nat)
        ∧ (length (dispatched trace) ≤ length new
           ≤ 2 * length (dispatched trace))%nat
        ∧ (∀ row, row ∈ new → log_url row ∈ dispatched trace)
        ∧ (∀ u, u ∈ dispatched trace → ∃ row, row ∈ new ∧ log_url row = u).
Proof.
  eexists _, _, _. split; [vm_compute; reflexivity |].
  eapply (every_dispatch_is_logged Site.completed 10 (Site.fresh 2)).
  vm_compute. reflexivity.
Defined.

Lemma frontier_is_fifo_witness :
  ∃ queue' ev self',
    crawl_turn Site.completed 10 [Site.home; Site.page_c] (Site.fresh 1)
    = (Next queue' ev, self')
    ∧ queue' = [Site.page_c; Site.page_a; Site.page_b]
    ∧ ∃ popped remaining links_list added,
        [Site.home; Site.page_c] = popped ++ remaining
        ∧ queue' = remaining ++ added
        ∧ run_workers Site.completed (as_completed Site.completed (ev_batch ev))
            (set_visited (ev_visited_at_dispatch ev) (Site.fresh 1))
          = (Ok <$> links_list, self')
        ∧ added = unvisited_links (visited self') links_list
        ∧ (∀ u, u ∈ added ↔
                (u ∉ visited self')
                ∧ ∃ links : gset string, links ∈ links_list ∧ u ∈ links)
        ∧ (ev_batch ev `sublist_of` popped)
        ∧ (∀ u, u ∈ popped → u ∈ visited self')
        ∧ (∀ u, u ∈ added → u ∉ visited self').
Proof.
  eexists _, _, _. split; [vm_compute; reflexivity |]. split; [reflexivity |].
  eapply (frontier_is_fifo Site.completed 10 _ (Site.fresh 1)).
  vm_compute. reflexivity.
Defined.

Lemma stored_rows_provenance_witness :
  ∃ r trace self',
    crawl Site.completed 10 (Site.fresh 2) = Some (r, trace, self')
    ∧ ∃ new,
        results self' = results (Site.fresh 2) ++ new
        ∧ (length new ≤ length (dispatched trace))%nat
        ∧ Forall (λ row, res_url row ∈ dispatched trace
                         ∧ stored_from_page Site.completed row) new.
Proof.
  eexists _, _, _. split; [vm_compute; reflexivity |].
  eapply (stored_rows_provenance Site.completed 10 (Site.fresh 2)).
  vm_compute. reflexivity.
Defined.

(** A second crawler on the table the first one left. *)
Lemma stored_pages_are_not_stored_again_witness :
  let first := (crawl_page Site.completed Site.home (Site.fresh 2)).2 in
  let self := set_visited ∅ first in
  ∃ r trace self',
    crawl Site.completed 10 self = Some (r, trace, self')
    ∧ ∃ new,
        results self' = results self ++ new
        ∧ Forall (λ row, (res_url row ∉ res_url <$> results self)
                         ∧ (res_content_hash row
                            ∉ res_content_hash <$> results self)) new.
Proof.
  intros first self.
  eexists _, _, _. split; [vm_compute; reflexivity |].
  eapply (stored_pages_are_not_stored_again Site.completed 10 self).
  vm_compute. reflexivity.
Defined.

(** A crawler built on a disk that already holds [crawler.db] with the home
    page stored. *)
Lemma new_crawler_refetches_seed_witness :
  let old := mkDb [mkResultRow Site.home (Some "Home") "old body" (Some "example.com")] [] in
  let disk : gmap string sqlite_db := {[ "crawler.db" := old ]} in
  ∃ c r trace c',
    WebCrawler_init Site.completed disk Site.home Site.config 1 2 = Ok c
    ∧ crawl Site.completed 10 c = Some (r, trace, c')
    ∧ visited c = ∅
    ∧ conn_db (conn c) = default (mkDb [] []) (disk !! "crawler.db")
    ∧ urlparse_netloc Site.completed Site.home = Ok (domain c)
    ∧ (∃ ev rest row,
         trace = ev :: rest ∧ ev_batch ev = [Site.home]
         ∧ logs c' !! length (logs c) = Some row ∧ log_url row = Site.home)
    ∧ (results c `prefix_of` results c').
Proof.
  intros old disk.
  eexists _, _, _, _. split; [vm_compute; reflexivity |].
  split; [vm_compute; reflexivity |].
  eapply (new_crawler_refetches_seed Site.completed disk Site.home Site.config 1 2 10).
  - vm_compute. reflexivity.
  - reflexivity.
  - reflexivity.
  - vm_compute. reflexivity.
Defined.

(** * Who persists, what a failure returns, and the frontier of the class
      as written *)

Section Persistence.
Context (W : World).

Lemma saved_rows_decide url title text ip rows :
  let row := mkResultRow url title (get_content_hash W text) ip in
  saved_rows W url title text ip rows
  = if decide (res_content_hash row ∈ res_content_hash <$> rows
               ∨ url ∈ res_url <$> rows)
    then rows else rows ++ [row].
Proof.
  intros row. unfold saved_rows.
  pose proof (Exists_fmap_elem res_content_hash (get_content_hash W text) rows) as Hh.
  pose proof (Exists_fmap_elem res_url url rows) as Hu.
  change (res_content_hash row) with (get_content_hash W text).
  destruct (decide (get_content_hash W text ∈ res_content_hash <$> rows
                    ∨ url ∈ res_url <$> rows)) as [Hin | Hnin].
  - case_bool_decide as H1; [done |]. case_bool_decide as H2; [done |].
    exfalso. destruct Hin as [Hin | Hin]; [apply H1 | apply H2]; tauto.
  - rewrite bool_decide_eq_false_2 by tauto.
    rewrite bool_decide_eq_false_2 by tauto. done.
Qed.

(** C5 (as amended). The worker does the persistence itself. Every call of
    [crawl_page] returns normally and has by then appended at least one
    entry for its url to [crawl_logs]. When the fetch, the parse and
    [urlparse] succeed it has called [save_result]: the page's record (url,
    title, content hash, host) is appended to [crawl_results] exactly when
    neither its hash nor its url is stored yet, and otherwise the table is
    left as it was; when one of them raises, nothing is stored and the one
    new log entry is the error. The call changes nothing else of the
    crawler, in particular not the visited set. The scheduler does no
    persistence of its own: a turn that runs no batch leaves the object
    untouched, and after any other turn the object is exactly as the workers
    of the batch left it. *)
Theorem crawl_page_persists_itself url self :
  ∃ links self' new_logs,
    crawl_page W url self = (Ok links, self')
    ∧ logs self' = logs self ++ new_logs
    ∧ new_logs ≠ []
    ∧ Forall (λ row, log_url row = url) new_logs
    ∧ match fetch_page W url with
      | Ok (text, s, ip) =>
          let row := mkResultRow url (title_of s) (get_content_hash W text) (Some ip) in
          results self'
          = if decide (res_content_hash row ∈ res_content_hash <$> results self
                       ∨ url ∈ res_url <$> results self)
            then results self else results self ++ [row]
      | Raise e =>
          results self' = results self
          ∧ new_logs = [mkLogRow url "error" (Some (str e))]
      end
    ∧ visited self' = visited self
    ∧ (∃ db, self' = set_db db self)
    ∧ (∀ max_pages queue,
         let out := crawl_turn W max_pages queue self in
         match out.1 with
         | Stop _ => out.2 = self
         | Next _ ev | Fail _ ev =>
             out.2 = (run_workers W (as_completed W (ev_batch ev))
                        (set_visited (ev_visited_at_dispatch ev) self)).2
         end).
Proof.
  destruct (crawl_page_outcome W url self) as (links & self' & Heq & Hout).
  assert (∀ max_pages queue,
            let out := crawl_turn W max_pages queue self in
            match out.1 with
            | Stop _ => out.2 = self
            | Next _ ev | Fail _ ev =>
                out.2 = (run_workers W (as_completed W (ev_batch ev))
                           (set_visited (ev_visited_at_dispatch ev) self)).2
            end) as Hsched.
  { intros max_pages queue out. subst out.
    destruct (crawl_turn W max_pages queue self) as [t s'] eqn:Hturn.
    pose proof (crawl_turn_spec W _ _ _ _ _ Hturn) as Hspec.
    pose proof (crawl_turn_run W _ _ _ _ _ Hturn) as Hrun.
    destruct t as [q | q ev | e ev]; simpl.
    - by destruct Hspec as (_ & -> & _).
    - destruct Hrun as (? & ? & futures & _ & _ & _ & -> & _). done.
    - destruct Hrun as (futures & ->). done. }
  exists links, self'.
  destruct Hout as [e Hfail | text s ip l Hg Hp Hi self1 _ | text s ip e Hg Hp Hi self1 _].
  - exists [mkLogRow url "error" (Some (str e))].
    split; [done |]. split; [done |]. split; [done |]. split; [by repeat constructor |].
    split; [| split; [done | split; [unfold logged; eauto | done]]].
    unfold fetch_page.
    destruct Hfail as [-> | [(t & -> & ->) | (t & sp & -> & -> & ->)]]; done.
  - exists [mkLogRow url "success" None].
    split; [done |]. split; [done |]. split; [done |]. split; [by repeat constructor |].
    split; [| split; [done | split; [unfold self1, logged, saved; eauto | done]]].
    unfold fetch_page. rewrite Hg, Hp, Hi. cbv zeta.
    rewrite <- saved_rows_decide. done.
  - exists [mkLogRow url "success" None; mkLogRow url "error" (Some (str e))].
    split; [done |]. split.
    { unfold self1, logged, saved. rewrite !logs_set_db. by rewrite <- app_assoc. }
    split; [done |]. split; [by repeat constructor |].
    split; [| split; [done | split; [unfold self1, logged, saved; eauto | done]]].
    unfold fetch_page. rewrite Hg, Hp, Hi. cbv zeta.
    rewrite <- saved_rows_decide. done.
Qed.

End Persistence.

(** ** What a failed fetch leaves behind *)

Section Failures.
Context (W : World).






End Failures.

(** ** The frontier of the class as written *)

Section FrontierAsWritten.
Context (W : World).




End FrontierAsWritten.

(** ** On the sample site *)



